(** * networktrace: the trace-and-enrich endpoint [api/trace.php]

    A shallow embedding of the request pipeline of [api/trace.php]
    (validation, traceroute invocation, output parsing, geolocation
    enrichment, response assembly) and the properties of it that the
    specification states.

    PHP strings are byte strings, PHP arrays are ordered maps, the regular
    expressions of the script are run by a small backtracking matcher
    with PCRE's leftmost, greedy semantics, and what the script does to
    the outside world (the traceroute process, the HTTP lookups, the
    sleeps) is recorded as a trace of events. The response of a request
    is the array the script hands to [json_encode]. *)

From Stdlib Require Import Ascii String.
From Stdlib Require Import List ZArith Lia Bool Arith PrimFloat.
From Stdlib Require Import Floats.
Import ListNotations.

Set Implicit Arguments.
Local Open Scope bool_scope.

(** ** Byte strings *)

Definition pstring := list ascii.

Definition str (s : string) : pstring := list_ascii_of_string s.

Definition code (c : ascii) : nat := nat_of_ascii c.

Definition between (a b : nat) (c : ascii) : bool :=
  (a <=? code c) && (code c <=? b).

Definition is_char (x c : ascii) : bool := Ascii.eqb x c.

(** [0-9], PCRE's [\d] without the [u] modifier. *)
Definition is_digit (c : ascii) : bool := between 48 57 c.

(** [a-zA-Z] *)
Definition is_upper (c : ascii) : bool := between 65 90 c.
Definition is_lower (c : ascii) : bool := between 97 122 c.

(** [0-9a-fA-F] *)
Definition is_hex (c : ascii) : bool :=
  is_digit c || between 65 70 c || between 97 102 c.

(** PCRE's [\s]: HT, LF, VT, FF, CR and space. *)
Definition is_space (c : ascii) : bool := between 9 13 c || (code c =? 32).

(** The characters [trim] strips by default: space, HT, LF, CR, NUL, VT. *)
Definition trim_char (c : ascii) : bool :=
  (code c =? 32) || (code c =? 9) || (code c =? 10) || (code c =? 13)
  || (code c =? 0) || (code c =? 11).

Fixpoint ltrim (s : pstring) : pstring :=
  match s with
  | c :: t => if trim_char c then ltrim t else s
  | [] => []
  end.

Definition rtrim (s : pstring) : pstring := rev (ltrim (rev s)).

Definition trim (s : pstring) : pstring := rtrim (ltrim s).

Definition pstring_eqb (a b : pstring) : bool :=
  if list_eq_dec ascii_dec a b then true else false.

(** [empty($s)] on a string: the empty string and the string "0". *)
Definition empty_string (s : pstring) : bool :=
  match s with
  | [] => true
  | [c] => is_char "0" c
  | _ => false
  end.

(** ASCII case folding, as [stripos] and [strtoupper] do it. *)
Definition to_lower (c : ascii) : ascii :=
  if is_upper c then ascii_of_nat (code c + 32) else c.

Definition to_upper (c : ascii) : ascii :=
  if is_lower c then ascii_of_nat (code c - 32) else c.

Definition strtolower (s : pstring) : pstring := map to_lower s.
Definition strtoupper (s : pstring) : pstring := map to_upper s.

Fixpoint starts_with (p s : pstring) : bool :=
  match p, s with
  | [], _ => true
  | a :: p', b :: s' => Ascii.eqb a b && starts_with p' s'
  | _ :: _, [] => false
  end.

Fixpoint contains (needle hay : pstring) : bool :=
  starts_with needle hay ||
  match hay with
  | [] => false
  | _ :: t => contains needle t
  end.

(** [stripos($hay, $needle) !== false] *)
Definition stripos_found (hay needle : pstring) : bool :=
  contains (strtolower needle) (strtolower hay).

(** ** Regular expressions

    Every quantifier of the script's patterns applies to a single character
    class, so a pattern is a sequence of atoms [c{lo,hi}]; all are greedy. *)

Record atom := Atom { cls : ascii -> bool; lo : nat; hi : option nat }.

Definition one (c : ascii -> bool) : atom := Atom c 1 (Some 1).
Definition opt (c : ascii -> bool) : atom := Atom c 0 (Some 1).
Definition star (c : ascii -> bool) : atom := Atom c 0 None.
Definition plus (c : ascii -> bool) : atom := Atom c 1 None.
Definition rep (c : ascii -> bool) (a b : nat) : atom := Atom c a (Some b).

Definition can_take (h : option nat) : bool :=
  match h with
  | Some 0 => false
  | _ => true
  end.

Definition took (h : option nat) : option nat := option_map pred h.

Section Repeat.
Variable R : Type.
Variable c : ascii -> bool.
(** What follows the atom: it gets the piece the atom consumed and the
    rest of the subject. *)
Variable k : pstring -> pstring -> option R.

(** Greedy repetition with backtracking: take one more character while
    the class and the upper bound allow it, and give characters back one
    at a time when what follows fails. [taken] is kept in reverse. *)
Fixpoint repeat_greedy (l : nat) (h : option nat) (taken s : pstring)
  : option R :=
  let stop := match l with
              | 0 => k (rev taken) s
              | S _ => None
              end in
  match s with
  | x :: t =>
      if c x && can_take h then
        match repeat_greedy (pred l) (took h) (x :: taken) t with
        | Some r => Some r
        | None => stop
        end
      else stop
  | [] => stop
  end.
End Repeat.

(** The pieces of the subject the atoms consume, in order; [fin] is the
    condition on the rest of the subject after the last atom. *)
Fixpoint match_atoms (atoms : list atom) (fin : pstring -> bool)
  (s : pstring) : option (list pstring) :=
  match atoms with
  | [] => if fin s then Some [] else None
  | a :: rest =>
      repeat_greedy (cls a)
        (fun piece s' => option_map (cons piece) (match_atoms rest fin s'))
        (lo a) (hi a) [] s
  end.

(** [caret]: the pattern starts with [^]; [dollar]: it ends with [$];
    [group]: the index of the first atom of capture group 1 and the number
    of atoms in it. *)
Record regex := Regex {
  caret : bool;
  atoms : list atom;
  dollar : bool;
  group : nat * nat
}.

(** [$] without modifiers: the end of the subject, or just before a
    newline that is its last character. *)
Definition at_dollar (s : pstring) : bool :=
  match s with
  | [] => true
  | [c] => code c =? 10
  | _ => false
  end.

Definition fin_of (re : regex) : pstring -> bool :=
  if dollar re then at_dollar else fun _ => true.

Definition match_here (re : regex) (s : pstring) : option (list pstring) :=
  match_atoms (atoms re) (fin_of re) s.

(** The leftmost match: start offsets are tried from left to right. *)
Fixpoint search (re : regex) (s : pstring) : option (list pstring) :=
  match match_here re s with
  | Some ps => Some ps
  | None =>
      match s with
      | [] => None
      | _ :: t => if caret re then None else search re t
      end
  end.

(** [preg_match($re, $s)] as a truth value. *)
Definition preg_match (re : regex) (s : pstring) : bool :=
  match search re s with
  | Some _ => true
  | None => false
  end.

(** [preg_match($re, $s, $matches)] and then [$matches[1]]. *)
Definition preg_match_group1 (re : regex) (s : pstring) : option pstring :=
  match search re s with
  | Some ps => Some (concat (firstn (snd (group re)) (skipn (fst (group re)) ps)))
  | None => None
  end.

(** ** PHP values

    Arrays are ordered maps from integer or string keys to values; the
    order is the order of insertion, which is also the order in which
    [json_encode] writes the members. *)

Inductive pkey :=
| KInt (z : Z)
| KStr (s : pstring).

#[warnings="-register-all"]
Inductive pval :=
| PNull
| PBool (b : bool)
| PInt (z : Z)
| PFloat (f : float)
| PStr (s : pstring)
| PArr (a : list (pkey * pval)).

Definition parray := list (pkey * pval).

Definition pkey_eqb (a b : pkey) : bool :=
  match a, b with
  | KInt x, KInt y => Z.eqb x y
  | KStr x, KStr y => pstring_eqb x y
  | _, _ => false
  end.

Fixpoint arr_get (k : pkey) (a : parray) : option pval :=
  match a with
  | [] => None
  | (k', v) :: rest => if pkey_eqb k k' then Some v else arr_get k rest
  end.

(** [$a[k] = v]: an existing key keeps its place, a new one goes last. *)
Fixpoint arr_set (k : pkey) (v : pval) (a : parray) : parray :=
  match a with
  | [] => [(k, v)]
  | (k', v') :: rest =>
      if pkey_eqb k k' then (k, v) :: rest else (k', v') :: arr_set k v rest
  end.

(** [$a[k]] read where the key may be missing (a warning, and null), and
    [$a[k] ?? null]: the same value. *)
Definition arr_read (k : pkey) (a : parray) : pval :=
  match arr_get k a with
  | Some v => v
  | None => PNull
  end.

(** A PHP list: the values under the keys 0, 1, 2, ... *)
Fixpoint list_from (i : Z) (vs : list pval) : parray :=
  match vs with
  | [] => []
  | v :: rest => (KInt i, v) :: list_from (i + 1) rest
  end.

Definition plist (vs : list pval) : pval := PArr (list_from 0 vs).

(** Conversion to bool, as [&&] and [if] do it. *)
Definition truthy (v : pval) : bool :=
  match v with
  | PNull => false
  | PBool b => b
  | PInt z => negb (Z.eqb z 0)
  | PFloat f => negb (PrimFloat.eqb f 0)
  | PStr s => negb (empty_string s)
  | PArr a => match a with [] => false | _ :: _ => true end
  end.

Definition skey (s : string) : pkey := KStr (str s).
Definition sval (s : string) : pval := PStr (str s).

(** ** The outside world

    What the script reads from its environment and from the built-in
    functions whose results it cannot determine itself. *)

Record World := {
  (** the constant [PHP_OS] *)
  PHP_OS : pstring;
  (** [escapeshellarg] of the platform *)
  escapeshellarg : pstring -> pstring;
  (** [exec($command, $output, $returnCode)]: the output lines and the
      exit status of the command *)
  exec : pstring -> list pstring * Z;
  (** [@file_get_contents($url, false, $context)]: the body, or [None]
      for [false] (no connection, timeout) *)
  file_get_contents : pstring -> option pstring;
  (** [json_decode($response, true)]: null for what is not JSON *)
  json_decode : pstring -> pval;
  (** [date('Y-m-d H:i:s')] *)
  date : pstring;
  (** Reading [$s['status']] on a string [$s]: PHP 7 warns and reads
      [$s[0]] ([None]); PHP 8 throws a [TypeError] with this message. *)
  string_offset_error : option pstring
}.

Inductive event :=
| EvExec (command : pstring)
| EvHttpGet (url : pstring)
| EvSleep (usec : Z).

(** [Exception] is what [catch (Exception $e)] catches, [Error] what only
    [catch (Throwable $e)] does. *)
Inductive thrown :=
| Exception (msg : pstring)
| Error (msg : pstring).

(** A computation: the events it caused, and its value or what it threw. *)
Definition M (A : Type) : Type := (list event * (A + thrown))%type.

Definition ret {A} (a : A) : M A := ([], inl a).
Definition throw {A} (t : thrown) : M A := ([], inr t).
Definition emit (e : event) : M unit := ([e], inl tt).

Definition bind {A B} (m : M A) (f : A -> M B) : M B :=
  match m with
  | (tr, inl a) => let (tr', r) := f a in (tr ++ tr', r)
  | (tr, inr t) => (tr, inr t)
  end.

Notation "x <- m ;; f" := (bind m (fun x => f))
  (at level 61, m at next level, right associativity).
Notation "m ;;; f" := (bind m (fun _ => f))
  (at level 61, right associativity).

Definition events {A} (m : M A) : list event := fst m.
Definition result {A} (m : M A) : A + thrown := snd m.

(** ** Input validation (the top of the script) *)

(** [[a-zA-Z0-9.-]] *)
Definition target_char (c : ascii) : bool :=
  is_lower c || is_upper c || is_digit c || is_char "." c || is_char "-" c.

(** [/^[a-zA-Z0-9.-]+$/] *)
Definition target_re : regex := Regex true [plus target_char] true (0, 0).

Inductive validation :=
| Missing
| Invalid
| Valid (target : pstring).

(** [$target = isset($_GET['target']) ? trim($_GET['target']) : '';]
    followed by the two checks. [None] is an unset parameter. *)
Definition validate (param : option pstring) : validation :=
  let target := match param with
                | Some raw => trim raw
                | None => []
                end in
  if empty_string target then Missing
  else if negb (preg_match target_re target) then Invalid
  else Valid target.

Definition missing_response : parray :=
  [ (skey "error", sval "Target parameter is required");
    (skey "usage", sval "api/trace.php?target=google.com") ].

Definition invalid_response : parray :=
  [ (skey "error",
     sval "Invalid target format. Only domain names and IP addresses are allowed.") ].

(** ** executeTraceroute *)

Record trace_result := {
  output : list pstring;
  returnCode : Z;
  isWindows : bool
}.

(** [strtoupper(substr(PHP_OS, 0, 3)) === 'WIN'] *)
Definition on_windows (w : World) : bool :=
  pstring_eqb (strtoupper (firstn 3 (PHP_OS w))) (str "WIN").

Definition command_for (w : World) (target : pstring) : pstring :=
  if on_windows w
  then str "tracert -4 -h 15 -w 1000 " ++ escapeshellarg w target
  else str "traceroute -m 15 -w 1 " ++ escapeshellarg w target.

Definition executeTraceroute (w : World) (target : pstring) : M trace_result :=
  let isWindows := on_windows w in
  let command := command_for w target in
  emit (EvExec command) ;;;
  let (output, returnCode) := exec w command in
  ret {| output := output; returnCode := returnCode; isWindows := isWindows |}.

(** ** parseTraceroute *)

(** [/^\s*\d+\s+\*\s+\*\s+\*/] *)
Definition asterisks_re : regex :=
  Regex true
    [ star is_space; plus is_digit; plus is_space; one (is_char "*");
      plus is_space; one (is_char "*"); plus is_space; one (is_char "*") ]
    false (0, 0).

(** [[0-9a-fA-F:]] *)
Definition hex_or_colon (c : ascii) : bool := is_hex c || is_char ":" c.

(** [/([0-9a-fA-F]{1,4}:[0-9a-fA-F:]+)/] *)
Definition ipv6_re : regex :=
  Regex false [ rep is_hex 1 4; one (is_char ":"); plus hex_or_colon ]
    false (0, 3).

(** [/\[?(\d{1,3}\.\d{1,3}\.\d{1,3}\.\d{1,3})\]?/] *)
Definition ipv4_re : regex :=
  Regex false
    [ opt (is_char "[");
      rep is_digit 1 3; one (is_char "."); rep is_digit 1 3; one (is_char ".");
      rep is_digit 1 3; one (is_char "."); rep is_digit 1 3;
      opt (is_char "]") ]
    false (1, 7).

(** [stripos($line, 'Request timed out') !== false ||
    preg_match('/^\s*\d+\s+\*\s+\*\s+\*/', $line)] *)
Definition unresponsive (line : pstring) : bool :=
  stripos_found line (str "Request timed out") || preg_match asterisks_re line.

(** The body of the loop up to [$ip]: [None] for a line that is skipped
    ([continue]) or in which neither pattern matches ([$ip] stays null). *)
Definition line_address (line : pstring) : option pstring :=
  if empty_string (trim line) then None
  else if unresponsive line then None
  else
    match preg_match_group1 ipv6_re line with
    | Some ip => Some ip
    | None => preg_match_group1 ipv4_re line
    end.

(** [in_array($ip, $ips)]. The comparison is the loose one, which compares
    two strings as numbers only when both are numeric; an address matched
    by either pattern has a colon or three dots (lemma
    [line_address_not_numeric]), so on [$ips] it is equality of bytes. *)
Definition in_array (ip : pstring) (ips : list pstring) : bool :=
  existsb (pstring_eqb ip) ips.

Definition parse_line (ips : list pstring) (line : pstring) : list pstring :=
  match line_address line with
  | Some ip => if in_array ip ips then ips else ips ++ [ip]
  | None => ips
  end.

(** The parameter [$isWindows] is received and not used. *)
Definition parseTraceroute (output : list pstring) (isWindows : bool)
  : list pstring :=
  fold_left parse_line output [].

(** ** getGeolocation *)

Definition geo_url (ip : pstring) : pstring :=
  str "http://ip-api.com/json/" ++ ip ++
  str "?fields=status,message,country,countryCode,region,regionName,city,lat,lon,isp,org,as,query".

(** [$data && $data['status'] === 'success'], for the decoded [$data]. *)
Definition status_is_success (w : World) (data : pval) : M bool :=
  if truthy data then
    match data with
    | PArr a =>
        match arr_read (skey "status") a with
        | PStr s => ret (pstring_eqb s (str "success"))
        | _ => ret false
        end
    | PStr s =>
        match string_offset_error w with
        | Some msg => throw (Error msg)
        | None => ret false   (* one character is not 'success' *)
        end
    | _ => ret false          (* an offset of a scalar reads as null *)
    end
  else ret false.

(** The array returned for a successful lookup. *)
Definition geo_record (a : parray) : parray :=
  [ (skey "ip", arr_read (skey "query") a);
    (skey "country", arr_read (skey "country") a);
    (skey "countryCode", arr_read (skey "countryCode") a);
    (skey "region", arr_read (skey "regionName") a);
    (skey "city", arr_read (skey "city") a);
    (skey "lat", arr_read (skey "lat") a);
    (skey "lon", arr_read (skey "lon") a);
    (skey "isp", arr_read (skey "isp") a);
    (skey "org", arr_read (skey "org") a);
    (skey "as", arr_read (skey "as") a) ].

(** "Return minimal data if geolocation fails" *)
Definition minimal_record (ip : pstring) : parray :=
  [ (skey "ip", PStr ip);
    (skey "country", PNull);
    (skey "city", PNull);
    (skey "lat", PNull);
    (skey "lon", PNull);
    (skey "isp", PNull) ].

Definition getGeolocation (w : World) (ip : pstring) : M parray :=
  let url := geo_url ip in
  emit (EvHttpGet url) ;;;
  match file_get_contents w url with
  | Some response =>
      let data := json_decode w response in
      ok <- status_is_success w data ;;
      if ok then
        match data with
        | PArr a => ret (geo_record a)
        | _ => ret (minimal_record ip)   (* not reached: [ok] needs an array *)
        end
      else ret (minimal_record ip)
  | None => ret (minimal_record ip)
  end.

(** ** getGeolocations *)

(** The [foreach ($ips as $index => $ip)] loop: [n] is [count($ips)],
    [index] the key of the next element, [hops] the array built so far. *)
Fixpoint geo_loop (w : World) (n : Z) (index : Z) (ips : list pstring)
  (hops : list parray) : M (list parray) :=
  match ips with
  | [] => ret hops
  | ip :: rest =>
      geoData <- getGeolocation w ip ;;
      let geoData := arr_set (skey "hop") (PInt (index + 1)) geoData in
      let hops := hops ++ [geoData] in
      (if (index <? n - 1)%Z then emit (EvSleep 700000) else ret tt) ;;;
      geo_loop w n (index + 1) rest hops
  end.

Definition getGeolocations (w : World) (ips : list pstring) : M (list parray) :=
  geo_loop w (Z.of_nat (length ips)) 0 ips [].

(** ** Main execution *)

Definition success_response (w : World) (target : pstring)
  (hops : list parray) : parray :=
  [ (skey "success", PBool true);
    (skey "target", PStr target);
    (skey "timestamp", PStr (date w));
    (skey "hopCount", PInt (Z.of_nat (length hops)));
    (skey "hops", plist (map PArr hops)) ].

(** The body of [try]. *)
Definition pipeline (w : World) (target : pstring) : M parray :=
  traceResult <- executeTraceroute w target ;;
  match output traceResult with
  | [] => throw (Exception (str "Traceroute command failed or returned no output"))
  | _ :: _ =>
      let ips := parseTraceroute (output traceResult) (isWindows traceResult) in
      match ips with
      | [] => throw (Exception (str "No valid IP addresses found in traceroute output"))
      | _ :: _ =>
          hops <- getGeolocations w ips ;;
          ret (success_response w target hops)
      end
  end.

Definition error_response (msg target : pstring) : parray :=
  [ (skey "error", PStr msg); (skey "target", PStr target) ].

(** [try { ... } catch (Exception $e) { ... } catch (Throwable $e) { ... }]:
    the events, and the array given to [json_encode]. *)
Definition try_pipeline (w : World) (target : pstring) : list event * parray :=
  match pipeline w target with
  | (tr, inl response) => (tr, response)
  | (tr, inr (Exception msg)) => (tr, error_response msg target)
  | (tr, inr (Error msg)) =>
      (tr, error_response (str "An unexpected error occurred: " ++ msg) target)
  end.

(** The whole script for one request: [param] is [$_GET['target']]. *)
Definition main (w : World) (param : option pstring) : list event * parray :=
  match validate param with
  | Missing => ([], missing_response)
  | Invalid => ([], invalid_response)
  | Valid target => try_pipeline w target
  end.

(** ** The request

    [$_GET['target']] is a string, or an array for a query such as
    [?target[]=x]. *)
Inductive get_value :=
| GetString (raw : pstring)
| GetArray.

(** What the script writes: the array it gives to [json_encode], or
    nothing. *)
Inductive body :=
| Json (response : parray)
| NoBody.

(** The script for one request, whatever [$_GET['target']] is. [trim] of
    an array warns and returns null on PHP 7, and [empty] takes null as a
    missing target. On PHP 8 ([trim_throws]) it throws a [TypeError];
    the call is above the [try], so the script ends there, and with
    [display_errors] set to 0 it writes nothing. *)
Definition request (w : World) (trim_throws : bool) (target : option get_value)
  : list event * body :=
  match target with
  | None => (fst (main w None), Json (snd (main w None)))
  | Some (GetString raw) =>
      (fst (main w (Some raw)), Json (snd (main w (Some raw))))
  | Some GetArray =>
      if trim_throws then ([], NoBody) else ([], Json missing_response)
  end.

(** ** ipInRange and isPrivateIP

    Integers are those of a 64-bit PHP, floats are doubles. [ip2long] is
    the built-in function, [None] for its [false]; what it accepts
    besides plain dotted quads depends on the platform, so it is a
    parameter. *)

(** [explode($delim, $s)] for a delimiter of one character. *)
Fixpoint explode (delim : ascii) (s : pstring) : list pstring :=
  match s with
  | [] => [[]]
  | c :: t =>
      if Ascii.eqb delim c then [] :: explode delim t
      else
        match explode delim t with
        | cur :: rest => (c :: cur) :: rest
        | [] => [[c]]
        end
  end.

(** The value of a string of decimal digits. *)
Fixpoint decimal_from (acc : Z) (s : pstring) : option Z :=
  match s with
  | [] => Some acc
  | c :: t =>
      if is_digit c
      then decimal_from (10 * acc + Z.of_nat (code c - 48)) t
      else None
  end.

Definition decimal (s : pstring) : option Z :=
  match s with
  | [] => None
  | _ :: _ => decimal_from 0 s
  end.

Inductive range_result :=
| InRange (b : bool)     (* the value returned *)
| ShiftError             (* [<<] by a negative number: an ArithmeticError *)
| MaskNotDecimal.        (* a mask that is not a string of digits: PHP
                            converts it with a warning or throws; not modelled *)

(** [false] in [&]: 0. *)
Definition as_int (v : option Z) : Z :=
  match v with
  | Some z => z
  | None => 0
  end.

Definition PHP_INT_MAX : Z := 9223372036854775807.

(** A string of digits that stands for more than [PHP_INT_MAX] is a
    float in arithmetic: the nearest double, ties to even, infinity when
    it is too large ([zend_strtod]). *)
Definition float_of_digits (v : Z) : float :=
  SF2Prim (binary_normalize prec emax v 0 false).

(** The integer that a float operand of [<<] is converted to
    ([zend_dval_to_lval]): 0 for NaN and the infinities, else the
    integral part, taken modulo 2^64 into the signed range. *)
Definition zend_dval_to_lval (d : float) : Z :=
  match Prim2SF d with
  | S754_finite s m e =>
      let magnitude := if (e <? 0)%Z then (Z.pos m / 2 ^ (- e))%Z
                       else (Z.pos m * 2 ^ e)%Z in
      let v := if s then (- magnitude)%Z else magnitude in
      ((v + 2 ^ 63) mod 2 ^ 64 - 2 ^ 63)%Z
  | _ => 0%Z
  end.

(** [32 - $mask] as the shift count, for the value [mask] of a string of
    digits: integer subtraction up to [PHP_INT_MAX] (there is no
    overflow, [mask] is not negative), float subtraction beyond it. *)
Definition shift_count (mask : Z) : Z :=
  if (mask <=? PHP_INT_MAX)%Z then (32 - mask)%Z
  else zend_dval_to_lval (32 - float_of_digits mask)%float.

(** [-1 << $n]: an ArithmeticError ([None]) for a negative count, 0 for
    a count of 64 or more. *)
Definition minus_one_shifted (n : Z) : option Z :=
  if (n <? 0)%Z then None
  else if (64 <=? n)%Z then Some 0%Z
  else Some (Z.shiftl (-1) n).

(** [list($subnet, $mask) = explode('/', $range)] and the rest of the
    function. Without a slash [$mask] is null and [32 - $mask] is 32. *)
Definition ipInRange (ip2long : pstring -> option Z) (ip range : pstring)
  : range_result :=
  let parts := explode "/" range in
  let subnet := nth 0 parts [] in
  let mask := match parts with
              | _ :: m :: _ => decimal m
              | _ => Some 0%Z
              end in
  match mask with
  | None => MaskNotDecimal
  | Some mask =>
      let ip_long := ip2long ip in
      let subnet_long := ip2long subnet in
      match minus_one_shifted (shift_count mask) with
      | None => ShiftError
      | Some mask_long =>
          InRange (Z.eqb (Z.land (as_int ip_long) mask_long)
                         (Z.land (as_int subnet_long) mask_long))
      end
  end.

Definition privateRanges : list pstring :=
  map str [ "10.0.0.0/8"; "172.16.0.0/12"; "192.168.0.0/16"; "127.0.0.0/8" ]%string.

(** The [foreach] of [isPrivateIP] over the ranges that are left. *)
Fixpoint in_some_range (ip2long : pstring -> option Z) (ip : pstring)
  (ranges : list pstring) : range_result :=
  match ranges with
  | [] => InRange false
  | range :: rest =>
      match ipInRange ip2long ip range with
      | InRange true => InRange true
      | InRange false => in_some_range ip2long ip rest
      | failure => failure
      end
  end.

Definition isPrivateIP (ip2long : pstring -> option Z) (ip : pstring)
  : range_result :=
  in_some_range ip2long ip privateRanges.

(** ** startProgress ([js/app.js])

    The simulated progress of the loading indicator. JavaScript numbers
    are binary64 floats; a tick is one call of the [setInterval]
    callback, every 200 ms until [stopProgress]. *)

#[warnings="-inexact-float"]
Definition increment (progress : float) : float :=
  if (progress <? 30)%float then 2%float
  else if (progress <? 60)%float then 0.8%float
  else if (progress <? 80)%float then 0.4%float
  else if (progress <? 95)%float then 0.1%float
  else 0%float.

(** [progress += increment; if (progress > 99) progress = 99;] *)
Definition tick (progress : float) : float :=
  let p := (progress + increment progress)%float in
  if (99 <? p)%float then 99%float else p.

(** [Math.round]: the nearest integer, a tie going up; [None] for NaN
    and the infinities. Computed exactly from mantissa and exponent. *)
Definition Math_round (x : float) : option Z :=
  match Prim2SF x with
  | S754_zero _ => Some 0%Z
  | S754_finite s m e =>
      let v := if s then Z.neg m else Z.pos m in
      Some (if (e <? 0)%Z
            then ((2 * v + 2 ^ (- e)) / 2 ^ (1 - e))%Z
            else (v * 2 ^ e)%Z)
  | _ => None
  end.

(** The message shown for [currentPercent]. *)
Definition message_for (currentPercent : Z) : pstring :=
  if (currentPercent <? 20)%Z then str "Resolving domain..."
  else if (currentPercent <? 40)%Z then str "Starting hops..."
  else if (currentPercent <? 70)%Z then str "Analyzing route..."
  else if (currentPercent <? 90)%Z then str "Identifying location..."
  else str "Finalizing...".

(** [progress] after [n] ticks: [startProgress] sets it to 0. *)
Definition progress_after (n : nat) : float := Nat.iter n tick 0%float.

(** ** Definitions used in the statements *)

Unset Implicit Arguments.

(** *** The matcher and the validator *)

(** What an atom may consume. *)
Definition fits (a : atom) (p : pstring) : Prop :=
  forallb (cls a) p = true /\ lo a <= length p /\
  (forall n, hi a = Some n -> length p <= n).

Definition accepts (raw : pstring) : bool :=
  match validate (Some raw) with
  | Valid _ => true
  | _ => false
  end.

(** *** The parser *)

(** The addresses the lines yield, one per line at most, in line order. *)
Fixpoint candidates (output : list pstring) : list pstring :=
  match output with
  | [] => []
  | line :: rest =>
      match line_address line with
      | Some ip => ip :: candidates rest
      | None => candidates rest
      end
  end.

(** [if (!in_array($ip, $ips)) { $ips[] = $ip; }] *)
Definition push (ips : list pstring) (ip : pstring) : list pstring :=
  if in_array ip ips then ips else ips ++ [ip].

Definition fresh (seen : list pstring) (b : pstring) : bool :=
  negb (in_array b seen).

(** In the words of the specification: each address once, at the place
    of its first appearance. *)
Definition without (a : pstring) (l : list pstring) : list pstring :=
  filter (fun b => negb (pstring_eqb a b)) l.

Fixpoint first_occurrences (l : list pstring) : list pstring :=
  match l with
  | [] => []
  | a :: t => a :: without a (first_occurrences t)
  end.

(** The position of the first appearance. *)
Fixpoint first_index (a : pstring) (l : list pstring) : option nat :=
  match l with
  | [] => None
  | x :: t => if pstring_eqb a x then Some 0 else option_map S (first_index a t)
  end.

(** Is there a dot in the string that is followed by a digit? *)
Fixpoint dot_then_digit (s : pstring) : bool :=
  match s with
  | [] => false
  | c :: t =>
      (is_char "." c && match t with x :: _ => is_digit x | [] => false end)
      || dot_then_digit t
  end.

Definition literal6 : pstring := str "2001:4860:0:1::67e".

Definition bracketed4 : pstring := str "[192.0.2.5]".
Definition literal4 : pstring := str "192.0.2.5".

(** *** The enricher *)

(** What the service answered for an address, decoded; [None] when there
    was no answer. *)
Definition decoded (w : World) (ip : pstring) : option pval :=
  option_map (json_decode w) (file_get_contents w (geo_url ip)).

(** The lookup ends in a [TypeError]: the answer is a JSON string (other
    than the empty string and "0") and the interpreter throws on
    [$data['status']]. *)
Definition lookup_faults (w : World) (ip : pstring) : Prop :=
  exists s msg, decoded w ip = Some (PStr s) /\ empty_string s = false /\
                string_offset_error w = Some msg.

(** The ways a lookup fails. *)
Inductive lookup_failure (w : World) (ip : pstring) : Prop :=
| NoResponse :                (* no connection, timeout *)
    file_get_contents w (geo_url ip) = None -> lookup_failure w ip
| NotJson :                   (* the body does not decode *)
    decoded w ip = Some PNull -> lookup_failure w ip
| NoSuccess (a : parray) :    (* status is missing or is not 'success' *)
    decoded w ip = Some (PArr a) ->
    arr_read (skey "status") a <> sval "success" -> lookup_failure w ip
| NotAnObject (v : pval) :    (* a JSON scalar *)
    decoded w ip = Some v ->
    match v with
    | PBool _ | PInt _ | PFloat _ => True
    | PStr s => empty_string s = true \/ string_offset_error w = None
    | _ => False
    end -> lookup_failure w ip.

(** The records of a list of lookups, with their hop numbers. *)
Fixpoint numbered (index : Z) (recs : list parray) : list parray :=
  match recs with
  | [] => []
  | r :: rest =>
      arr_set (skey "hop") (PInt (index + 1)) r :: numbered (index + 1) rest
  end.

(** The hop of an address whose lookup failed: the six members of the
    minimal record and the hop number. *)
Definition degraded_hop (ip : pstring) (n : Z) : parray :=
  [ (skey "ip", PStr ip);
    (skey "country", PNull);
    (skey "city", PNull);
    (skey "lat", PNull);
    (skey "lon", PNull);
    (skey "isp", PNull);
    (skey "hop", PInt n) ].

(** A separator between each two consecutive elements, none at the end. *)
Fixpoint between_each {A} (sep : A) (l : list A) : list A :=
  match l with
  | [] => []
  | x :: rest =>
      match rest with
      | [] => [x]
      | _ :: _ => x :: sep :: between_each sep rest
      end
  end.

Definition is_sleep (e : event) : bool :=
  match e with
  | EvSleep _ => true
  | _ => false
  end.

Definition delays (tr : list event) : nat := length (filter is_sleep tr).

Definition requests (ips : list pstring) : list event :=
  map (fun ip => EvHttpGet (geo_url ip)) ips.

(** *** The pipeline *)

Definition no_output_message : pstring :=
  str "Traceroute command failed or returned no output".

Definition no_hops_message : pstring :=
  str "No valid IP addresses found in traceroute output".

(** The lines the traceroute command printed, and what the parser makes
    of them. *)
Definition raw_output (w : World) (target : pstring) : list pstring :=
  fst (exec w (command_for w target)).

Definition hop_addresses (w : World) (target : pstring) : list pstring :=
  parseTraceroute (raw_output w target) (on_windows w).

(** The exit status replaced by another one, everything else the same. *)
Definition with_exit_status (rc : pstring -> Z) (w : World) : World :=
  {| PHP_OS := PHP_OS w;
     escapeshellarg := escapeshellarg w;
     exec := fun command => (fst (exec w command), rc command);
     file_get_contents := file_get_contents w;
     json_decode := json_decode w;
     date := date w;
     string_offset_error := string_offset_error w |}.

(** *** Sample worlds and requests *)

Definition quote_arg (s : pstring) : pstring := str "'" ++ s ++ str "'".

Definition sample_world (lines : list string) (rc : Z)
  (lookup : pstring -> option pstring) (decode : pstring -> pval)
  (off : option pstring) : World :=
  {| PHP_OS := str "Linux";
     escapeshellarg := quote_arg;
     exec := fun _ => (map str lines, rc);
     file_get_contents := lookup;
     json_decode := decode;
     date := str "2024-01-01 00:00:00";
     string_offset_error := off |}.

Definition no_lookup : pstring -> option pstring := fun _ => None.
Definition no_json : pstring -> pval := fun _ => PNull.

Definition example_com : option pstring := Some (str "example.com").

(** Three responsive hops and an unresponsive one; every lookup fails. *)
Definition offline_world : World :=
  sample_world
    [ "traceroute to example.com (93.184.216.34), 15 hops max, 60 byte packets"%string;
      " 1  gateway (192.0.2.1)  0.412 ms  0.398 ms  0.377 ms"%string;
      " 2  * * *"%string;
      " 3  198.51.100.7 (198.51.100.7)  9.120 ms  9.101 ms  9.340 ms"%string ]
    0 no_lookup no_json None.

(** Output without any address. *)
Definition silent_world : World :=
  sample_world [ " 1  * * *"%string; " 2  * * *"%string ] 1
    no_lookup no_json None.

(** The service answers for 192.0.2.1 only. *)
Definition mixed_world : World :=
  sample_world
    [ " 1  gateway (192.0.2.1)  0.412 ms  0.398 ms  0.377 ms"%string;
      " 2  * * *"%string;
      " 4  198.51.100.7 (198.51.100.7)  9.120 ms  9.101 ms  9.340 ms"%string;
      " 5  203.0.113.9 (203.0.113.9)  19.5 ms  19.1 ms  19.3 ms"%string ]
    0
    (fun url => if pstring_eqb url (geo_url (str "192.0.2.1"))
                then Some (str "(answer)") else None)
    (fun _ => PArr [ (skey "status", sval "success");
                     (skey "country", sval "Nowhere");
                     (skey "lat", PFloat 1.5);
                     (skey "lon", PInt 2);
                     (skey "query", sval "192.0.2.1") ])
    (Some (str "Cannot access offset of type string on string")).

(** The service answers 192.0.2.1 with a bare JSON string, on PHP 8. *)
Definition bare_string_world : World :=
  sample_world
    [ " 1  gateway (192.0.2.1)  0.412 ms  0.398 ms  0.377 ms"%string;
      " 2  198.51.100.7 (198.51.100.7)  9.120 ms  9.101 ms  9.340 ms"%string ]
    0
    (fun _ => Some (str "(answer)"))
    (fun _ => sval "rate limited")
    (Some (str "Cannot access offset of type string on string")).

Definition tracert_sample : list pstring :=
  map str
    [ "Tracing route to example.com [93.184.216.34]"%string;
      "over a maximum of 15 hops:"%string;
      "  1    <1 ms    <1 ms    <1 ms  192.0.2.1"%string;
      "  2     *        *        *     Request timed out."%string;
      "  3    12 ms    11 ms    12 ms  host.example.net [198.51.100.7]"%string;
      "Trace complete."%string ].

(** The same lines, printed on the platform [os]. *)
Definition tracert_world (os : string) : World :=
  {| PHP_OS := str os;
     escapeshellarg := quote_arg;
     exec := fun _ => (tracert_sample, 0%Z);
     file_get_contents := no_lookup;
     json_decode := no_json;
     date := str "2024-01-01 00:00:00";
     string_offset_error := None |}.

(** *** What a request did *)

(** The commands a trace executed, and the URLs it requested, in order. *)
Fixpoint exec_commands (tr : list event) : list pstring :=
  match tr with
  | [] => []
  | EvExec command :: rest => command :: exec_commands rest
  | _ :: rest => exec_commands rest
  end.

Fixpoint http_urls (tr : list event) : list pstring :=
  match tr with
  | [] => []
  | EvHttpGet url :: rest => url :: http_urls rest
  | _ :: rest => http_urls rest
  end.

(** The hop built from the answer [a] of a successful lookup. *)
Definition enriched_hop (a : parray) (n : Z) : parray :=
  geo_record a ++ [(skey "hop", PInt n)].

Definition enriched_keys : list pkey :=
  map skey [ "ip"; "country"; "countryCode"; "region"; "city"; "lat"; "lon";
             "isp"; "org"; "as"; "hop" ]%string.

Definition degraded_keys : list pkey :=
  map skey [ "ip"; "country"; "city"; "lat"; "lon"; "isp"; "hop" ]%string.

(** The characters of an address: hexadecimal digits, colon and dot. *)
Definition addr_char (c : ascii) : bool := hex_or_colon c || is_char "." c.

(** *** The two envelopes *)

(** success true, a hops list that is not empty, hopCount its length,
    and no error member. *)
Definition success_envelope (r : parray) : Prop :=
  arr_get (skey "success") r = Some (PBool true) /\
  arr_get (skey "error") r = None /\
  exists hops,
    hops <> [] /\
    arr_get (skey "hops") r = Some (plist (map PArr hops)) /\
    arr_get (skey "hopCount") r = Some (PInt (Z.of_nat (length hops))).

(** An error member that is a non-empty string, and no success, hops or
    hopCount member. *)
Definition error_envelope (r : parray) : Prop :=
  arr_get (skey "success") r = None /\
  arr_get (skey "hops") r = None /\
  arr_get (skey "hopCount") r = None /\
  exists msg, msg <> [] /\ arr_get (skey "error") r = Some (PStr msg).

(** The target that validation accepts, if it accepts one. An array is
    never accepted. *)
Definition accepted_target (target : option get_value) : option pstring :=
  match target with
  | Some GetArray => None
  | Some (GetString raw) =>
      match validate (Some raw) with
      | Valid t => Some t
      | _ => None
      end
  | None => None
  end.

(** *** Addresses as integers *)

(** The integer of the dotted quad a.b.c.d. *)
Definition quad (a b c d : Z) : Z :=
  (a * 2 ^ 24 + b * 2 ^ 16 + c * 2 ^ 8 + d)%Z.

Definition octet (a : Z) : Prop := (0 <= a < 256)%Z.

(** [ip2long] reads the four subnets of [privateRanges]. *)
Definition reads_subnets (ip2long : pstring -> option Z) : Prop :=
  ip2long (str "10.0.0.0") = Some (quad 10 0 0 0) /\
  ip2long (str "172.16.0.0") = Some (quad 172 16 0 0) /\
  ip2long (str "192.168.0.0") = Some (quad 192 168 0 0) /\
  ip2long (str "127.0.0.0") = Some (quad 127 0 0 0).

(** 10/8, 172.16/12, 192.168/16 and 127/8, on the first two octets. *)
Definition private_octets (a b : Z) : bool :=
  (a =? 10)%Z || ((a =? 172)%Z && (16 <=? b)%Z && (b <=? 31)%Z)
  || ((a =? 192)%Z && (b =? 168)%Z) || (a =? 127)%Z.

(** An [ip2long] that knows five strings, for the examples. *)
Definition ip2long_sample (s : pstring) : option Z :=
  if pstring_eqb s (str "10.0.0.0") then Some (quad 10 0 0 0)
  else if pstring_eqb s (str "172.16.0.0") then Some (quad 172 16 0 0)
  else if pstring_eqb s (str "192.168.0.0") then Some (quad 192 168 0 0)
  else if pstring_eqb s (str "127.0.0.0") then Some (quad 127 0 0 0)
  else if pstring_eqb s (str "172.31.255.254") then Some (quad 172 31 255 254)
  else None.

(** *** The progress indicator *)

(** What holds of [progress] at every tick: the percentage shown is
    between 0 and 95, the next tick does not lower [progress], and the
    cap at 99 does not apply. *)
Definition steady_progress (p : float) : bool :=
  match Math_round p with
  | Some percent => (0 <=? percent)%Z && (percent <=? 95)%Z
  | None => false
  end
  && (p <=? tick p)%float
  && negb (99 <? p + increment p)%float.

(** * Properties *)

(** ** The matcher *)

Section RepeatFacts.
Variable R : Type.
Variable c : ascii -> bool.
Variable k : pstring -> pstring -> option R.

(** A result of [repeat_greedy] comes from a split of the subject into
    a piece of the class, within the bounds, and a rest on which the
    continuation succeeds. *)
Lemma repeat_greedy_sound (s : pstring) : forall l h taken r,
  repeat_greedy c k l h taken s = Some r ->
  exists p rest,
    s = p ++ rest /\ forallb c p = true /\ l <= length p /\
    (forall n, h = Some n -> length p <= n) /\
    k (rev taken ++ p) rest = Some r.
Proof.
  induction s as [|x t IH]; intros l h taken r H; simpl in H.
  - destruct l; [|discriminate].
    exists [], []. rewrite (app_nil_r (rev taken)).
    repeat split; auto; simpl; intros; lia.
  - assert (Hstop : match l with 0 => k (rev taken) (x :: t) | S _ => None end = Some r ->
                    exists p rest, x :: t = p ++ rest /\ forallb c p = true /\
                      l <= length p /\ (forall n, h = Some n -> length p <= n) /\
                      k (rev taken ++ p) rest = Some r).
    { intros Hs. destruct l; [|discriminate].
      exists [], (x :: t). rewrite (app_nil_r (rev taken)).
      repeat split; auto; simpl; intros; lia. }
    destruct (c x && can_take h) eqn:Hc; [|auto].
    destruct (repeat_greedy c k (pred l) (took h) (x :: taken) t) as [r'|] eqn:Hr; [|auto].
    inversion H; subst r'. clear H Hstop.
    apply andb_prop in Hc. destruct Hc as [Hx Hh].
    apply IH in Hr. destruct Hr as (p & rest & -> & Hp & Hl & Hb & Hk).
    exists (x :: p), rest. simpl. rewrite Hx, Hp. repeat split; auto.
    + lia.
    + intros n ->. destruct n; [discriminate|].
      specialize (Hb n eq_refl). lia.
    + simpl in Hk. rewrite <- app_assoc in Hk. exact Hk.
Qed.

(** Greedy first: when the longest piece the class and the bound allow
    is followed by a rest the continuation accepts, that is the result. *)
Lemma repeat_greedy_max (p : pstring) : forall rest l h taken r,
  forallb c p = true ->
  l <= length p ->
  (forall n, h = Some n -> length p <= n) ->
  (h = Some (length p) \/
   match rest with [] => True | y :: _ => c y = false end) ->
  k (rev taken ++ p) rest = Some r ->
  repeat_greedy c k l h taken (p ++ rest) = Some r.
Proof.
  induction p as [|a p IH]; intros rest l h taken r Hp Hl Hb Hmax Hk.
  - simpl in *. rewrite app_nil_r in Hk.
    assert (l = 0) by lia; subst l.
    destruct rest as [|y rest]; simpl; [exact Hk|].
    destruct Hmax as [-> | Hy]; simpl.
    + rewrite andb_false_r. exact Hk.
    + rewrite Hy. exact Hk.
  - simpl in Hp. apply andb_prop in Hp. destruct Hp as [Ha Hp].
    simpl. rewrite Ha.
    assert (Hcan : can_take h = true).
    { destruct h as [[|n]|]; auto. specialize (Hb 0 eq_refl). simpl in Hb. lia. }
    rewrite Hcan. simpl.
    rewrite (IH rest (pred l) (took h) (a :: taken) r); auto.
    + simpl in Hl. lia.
    + intros n Hn. destruct h as [m|]; [|discriminate].
      simpl in Hn. inversion Hn; subst n.
      specialize (Hb m eq_refl). simpl in Hb. lia.
    + destruct Hmax as [-> | Hy]; [left; reflexivity | right; exact Hy].
    + simpl. rewrite <- app_assoc. exact Hk.
Qed.
End RepeatFacts.

Lemma match_atoms_sound (ats : list atom) (fin : pstring -> bool) :
  forall s ps,
    match_atoms ats fin s = Some ps ->
    Forall2 fits ats ps /\
    exists rest, s = concat ps ++ rest /\ fin rest = true.
Proof.
  induction ats as [|a ats IH]; intros s ps H; simpl in H.
  - destruct (fin s) eqn:Hf; [|discriminate]. inversion H; subst ps.
    split; [constructor|]. exists s. auto.
  - apply repeat_greedy_sound in H.
    destruct H as (p & rest & -> & Hp & Hl & Hb & Hk).
    simpl in Hk.
    destruct (match_atoms ats fin rest) as [qs|] eqn:Hm; [|discriminate].
    inversion Hk; subst ps. apply IH in Hm.
    destruct Hm as [HF (rest' & -> & Hfin)].
    split; [constructor; [repeat split; auto | exact HF]|].
    exists rest'. simpl. rewrite <- app_assoc. auto.
Qed.

(** The leftmost match: a match at some offset, and none at any earlier
    one; with [^], the offset is 0. *)
Lemma search_sound (re : regex) : forall s ps,
  search re s = Some ps ->
  exists pre suf,
    s = pre ++ suf /\ match_here re suf = Some ps /\
    (caret re = true -> pre = []) /\
    (forall a b, pre = a ++ b -> b <> [] -> match_here re (b ++ suf) = None).
Proof.
  induction s as [|x t IH]; intros ps H; simpl in H.
  - destruct (match_here re []) eqn:Hm; [|discriminate].
    inversion H; subst. exists [], []. repeat split; auto.
    intros a b Hab Hb. destruct a; destruct b; try discriminate. congruence.
  - destruct (match_here re (x :: t)) eqn:Hm.
    + inversion H; subst. exists [], (x :: t). repeat split; auto.
      intros a b Hab Hb. destruct a; destruct b; try discriminate. congruence.
    + destruct (caret re) eqn:Hc; [discriminate|].
      apply IH in H. destruct H as (pre & suf & -> & Hs & _ & Hearly).
      exists (x :: pre), suf. repeat split; auto; [discriminate|].
      intros a b Hab Hb. destruct a as [|y a]; simpl in Hab.
      * subst b. exact Hm.
      * inversion Hab; subst. eapply Hearly; eauto.
Qed.

Lemma search_caret (re : regex) (s : pstring) :
  caret re = true -> search re s = match_here re s.
Proof.
  intros Hc. destruct s; simpl; destruct (match_here re _); auto.
  now rewrite Hc.
Qed.

(** ** trim and empty *)

Lemma ltrim_split (s : pstring) :
  exists a, s = a ++ ltrim s /\ forallb trim_char a = true.
Proof.
  induction s as [|c t (a & Ha & Hall)]; simpl.
  - exists []. auto.
  - destruct (trim_char c) eqn:Hc.
    + exists (c :: a). simpl. rewrite Hc, Hall. split; [congruence | reflexivity].
    + exists []. auto.
Qed.

Lemma ltrim_head (s : pstring) (c : ascii) (t : pstring) :
  ltrim s = c :: t -> trim_char c = false.
Proof.
  induction s as [|x s IH]; simpl; [discriminate|].
  destruct (trim_char x) eqn:Hx; [exact IH|].
  intros H. inversion H; subst. exact Hx.
Qed.

Lemma rtrim_split (s : pstring) :
  exists b, s = rtrim s ++ b /\ forallb trim_char b = true.
Proof.
  destruct (ltrim_split (rev s)) as (a & Ha & Hall).
  exists (rev a). split.
  - unfold rtrim. rewrite <- rev_app_distr, <- Ha. now rewrite rev_involutive.
  - rewrite forallb_forall in *. intros x Hx. apply Hall. now apply in_rev.
Qed.

Lemma rtrim_last (s u : pstring) (c : ascii) :
  rtrim s = u ++ [c] -> trim_char c = false.
Proof.
  unfold rtrim. intros H.
  apply (f_equal (@rev ascii)) in H.
  rewrite rev_involutive, rev_app_distr in H. simpl in H.
  exact (ltrim_head _ _ _ H).
Qed.

(** The trimmed string is a segment of the string, between two runs of
    trimmed characters. *)
Lemma trim_split (s : pstring) :
  exists a b, s = a ++ trim s ++ b /\
              forallb trim_char a = true /\ forallb trim_char b = true.
Proof.
  destruct (ltrim_split s) as (a & Ha & Hall).
  destruct (rtrim_split (ltrim s)) as (b & Hb & Hbll).
  exists a, b. unfold trim. rewrite <- Hb. auto.
Qed.

Lemma trim_keeps (s : pstring) (c : ascii) :
  In c s -> trim_char c = false -> In c (trim s).
Proof.
  intros Hin Hc. destruct (trim_split s) as (a & b & Hs & Ha & Hb).
  rewrite Hs in Hin. rewrite forallb_forall in Ha, Hb.
  rewrite !in_app_iff in Hin. destruct Hin as [H | [H | H]]; auto.
  - apply Ha in H. congruence.
  - apply Hb in H. congruence.
Qed.

Lemma trim_incl (s : pstring) (c : ascii) : In c (trim s) -> In c s.
Proof.
  intros Hin. destruct (trim_split s) as (a & b & Hs & _).
  rewrite Hs, !in_app_iff. auto.
Qed.

Lemma trim_last (s u : pstring) (c : ascii) :
  trim s = u ++ [c] -> trim_char c = false.
Proof. unfold trim. apply rtrim_last. Qed.

Lemma is_char_eq (x c : ascii) : is_char x c = true <-> c = x.
Proof. unfold is_char. rewrite Ascii.eqb_eq. split; congruence. Qed.

Lemma empty_string_spec (s : pstring) :
  empty_string s = true <-> s = [] \/ s = str "0".
Proof.
  destruct s as [|c [|d s]]; unfold empty_string.
  - tauto.
  - rewrite is_char_eq. split.
    + intros ->. now right.
    + intros [H | H]; [discriminate | now inversion H].
  - split; [discriminate | intros [H | H]; discriminate].
Qed.

(** ** The target pattern *)

(** [/^[a-zA-Z0-9.-]+$/] matches the non-empty strings of allowed
    characters, and those followed by one newline. *)
Lemma target_re_spec (s : pstring) :
  preg_match target_re s = true <->
  exists t nl, s = t ++ nl /\ t <> [] /\ forallb target_char t = true /\
               (nl = [] \/ nl = [ascii_of_nat 10]).
Proof.
  unfold preg_match. rewrite search_caret by reflexivity.
  unfold match_here; simpl. split.
  - destruct (repeat_greedy _ _ _ _ _ _) eqn:H; [intros _ | discriminate].
    apply repeat_greedy_sound in H.
    destruct H as (p & rest & -> & Hp & Hl & _ & Hk). simpl in Hk.
    exists p, rest. split; [reflexivity|]. split; [|split; [exact Hp|]].
    + destruct p; simpl in Hl; [lia | congruence].
    + destruct rest as [|c [|d rest]]; [now left | | discriminate].
      unfold fin_of, at_dollar in Hk; simpl in Hk.
      destruct (code c =? 10) eqn:Hc; [|discriminate].
      right. apply Nat.eqb_eq in Hc. unfold code in Hc.
      rewrite <- Hc, ascii_nat_embedding. reflexivity.
  - intros (t & nl & -> & Hne & Hall & Hnl).
    erewrite repeat_greedy_max; eauto.
    + destruct t; [congruence | simpl; lia].
    + discriminate.
    + right. destruct Hnl as [-> | ->]; auto.
    + simpl. destruct Hnl as [-> | ->]; reflexivity.
Qed.

(** After [trim] the newline case cannot arise. *)
Lemma target_re_trimmed (raw : pstring) :
  preg_match target_re (trim raw) = true <->
  trim raw <> [] /\ forallb target_char (trim raw) = true.
Proof.
  rewrite target_re_spec. split.
  - intros (t & nl & Ht & Hne & Hall & [-> | ->]).
    + rewrite app_nil_r in Ht. subst t. auto.
    + apply trim_last in Ht. discriminate.
  - intros [Hne Hall]. exists (trim raw), []. rewrite app_nil_r. auto.
Qed.

Lemma accepts_spec (raw : pstring) :
  accepts raw = true <->
  empty_string (trim raw) = false /\ preg_match target_re (trim raw) = true.
Proof.
  unfold accepts, validate.
  destruct (empty_string (trim raw)); [split; [discriminate | intros [H _]; discriminate]|].
  destruct (preg_match target_re (trim raw)); simpl; split; auto.
  intros [_ H]; discriminate.
Qed.

Lemma validate_target (param : option pstring) (t : pstring) :
  validate param = Valid t ->
  exists raw, param = Some raw /\ t = trim raw /\
              empty_string t = false /\ preg_match target_re t = true.
Proof.
  unfold validate. destruct param as [raw|]; simpl; [|discriminate].
  destruct (empty_string (trim raw)) eqn:He; [discriminate|].
  destruct (preg_match target_re (trim raw)) eqn:Hm; simpl; [|discriminate].
  intros H. inversion H; subst. exists raw. rewrite He, Hm. auto.
Qed.

Lemma rejected_no_events (w : World) (raw : pstring) :
  accepts raw = false ->
  main w (Some raw) = ([], missing_response) \/
  main w (Some raw) = ([], invalid_response).
Proof.
  unfold accepts, main. destruct (validate (Some raw)); auto. discriminate.
Qed.

(** ** The parser: deduplication and order *)

Lemma pstring_eqb_eq (a b : pstring) : pstring_eqb a b = true <-> a = b.
Proof.
  unfold pstring_eqb. destruct (list_eq_dec ascii_dec a b); split; auto; discriminate.
Qed.

Lemma pstring_eqb_refl (a : pstring) : pstring_eqb a a = true.
Proof. now apply pstring_eqb_eq. Qed.

Lemma pstring_eqb_neq (a b : pstring) : pstring_eqb a b = false <-> a <> b.
Proof.
  rewrite <- pstring_eqb_eq. destruct (pstring_eqb a b); split; congruence.
Qed.

Lemma in_array_spec (ip : pstring) (ips : list pstring) :
  in_array ip ips = true <-> In ip ips.
Proof.
  unfold in_array. rewrite existsb_exists. split.
  - intros (x & Hin & Heq). apply pstring_eqb_eq in Heq. now subst.
  - intros Hin. exists ip. split; [exact Hin | apply pstring_eqb_refl].
Qed.

Lemma parse_fold_candidates (output : list pstring) : forall ips,
  fold_left parse_line output ips = fold_left push (candidates output) ips.
Proof.
  induction output as [|line rest IH]; intros ips; simpl; [reflexivity|].
  rewrite IH. unfold parse_line at 1.
  destruct (line_address line); reflexivity.
Qed.

Lemma filter_fresh_without (seen l : list pstring) (a : pstring) :
  In a seen -> filter (fresh seen) (without a l) = filter (fresh seen) l.
Proof.
  intros Hin. induction l as [|x l IH]; simpl; [reflexivity|].
  destruct (pstring_eqb a x) eqn:Hax; simpl.
  - apply pstring_eqb_eq in Hax. subst x.
    unfold fresh at 2. apply in_array_spec in Hin. rewrite Hin. simpl. exact IH.
  - rewrite IH. reflexivity.
Qed.

Lemma filter_fresh_snoc (seen l : list pstring) (a : pstring) :
  filter (fresh (seen ++ [a])) l = filter (fresh seen) (without a l).
Proof.
  induction l as [|x l IH]; simpl; [reflexivity|].
  assert (Hx : fresh (seen ++ [a]) x = negb (pstring_eqb a x) && fresh seen x).
  { unfold fresh, in_array. rewrite existsb_app. simpl.
    rewrite orb_false_r, negb_orb, andb_comm. f_equal. f_equal.
    destruct (pstring_eqb x a) eqn:E1, (pstring_eqb a x) eqn:E2; auto.
    - apply pstring_eqb_eq in E1. subst. rewrite pstring_eqb_refl in E2. discriminate.
    - apply pstring_eqb_eq in E2. subst. rewrite pstring_eqb_refl in E1. discriminate. }
  rewrite Hx. destruct (pstring_eqb a x); simpl; rewrite IH; reflexivity.
Qed.

Lemma fold_push_first_occurrences (l : list pstring) : forall seen,
  fold_left push l seen = seen ++ filter (fresh seen) (first_occurrences l).
Proof.
  induction l as [|a l IH]; intros seen; simpl.
  - now rewrite app_nil_r.
  - rewrite IH. unfold push.
    assert (Hf : fresh seen a = negb (in_array a seen)) by reflexivity.
    destruct (in_array a seen) eqn:Hin; rewrite Hf; simpl.
    + apply in_array_spec in Hin. now rewrite filter_fresh_without.
    + rewrite <- app_assoc. simpl. now rewrite filter_fresh_snoc.
Qed.

Lemma parse_first_occurrences (output : list pstring) (isWindows : bool) :
  parseTraceroute output isWindows = first_occurrences (candidates output).
Proof.
  unfold parseTraceroute.
  rewrite parse_fold_candidates, fold_push_first_occurrences. simpl.
  induction (first_occurrences (candidates output)) as [|x l IH]; simpl; congruence.
Qed.

Lemma in_without (a b : pstring) (l : list pstring) :
  In b (without a l) <-> In b l /\ a <> b.
Proof.
  unfold without. rewrite filter_In, negb_true_iff, pstring_eqb_neq. tauto.
Qed.

Lemma first_occurrences_in (l : list pstring) (a : pstring) :
  In a (first_occurrences l) <-> In a l.
Proof.
  induction l as [|x l IH]; simpl; [tauto|].
  rewrite in_without, IH.
  destruct (list_eq_dec ascii_dec x a); [subst|]; tauto.
Qed.

Lemma first_occurrences_nodup (l : list pstring) : NoDup (first_occurrences l).
Proof.
  induction l as [|x l IH]; simpl; constructor.
  - rewrite in_without. tauto.
  - unfold without. now apply NoDup_filter.
Qed.

Lemma first_index_in (a : pstring) (l : list pstring) :
  In a l -> exists p, first_index a l = Some p.
Proof.
  induction l as [|x l IH]; simpl; [tauto|].
  intros Hin. destruct (pstring_eqb a x) eqn:Hax; [eauto|].
  apply pstring_eqb_neq in Hax.
  destruct Hin as [-> | Hin]; [congruence|].
  destruct (IH Hin) as [p ->]. simpl. eauto.
Qed.

(** Filtering keeps the relative order. *)
Lemma filter_order (f : pstring -> bool) (l : list pstring) :
  forall i j a b,
    nth_error (filter f l) i = Some a ->
    nth_error (filter f l) j = Some b ->
    i < j ->
    exists i' j', i' < j' /\ nth_error l i' = Some a /\ nth_error l j' = Some b.
Proof.
  induction l as [|x l IH]; intros i j a b Hi Hj Hlt; simpl in *.
  - destruct i; discriminate.
  - destruct (f x).
    + destruct j as [|j]; [lia|]. destruct i as [|i]; simpl in *.
      * apply nth_error_In in Hj. apply filter_In in Hj. destruct Hj as [Hj _].
        apply In_nth_error in Hj. destruct Hj as [j' Hj'].
        exists 0, (S j'). simpl. repeat split; auto. lia.
      * destruct (IH i j a b Hi Hj) as (i' & j' & H1 & H2 & H3); [lia|].
        exists (S i'), (S j'). simpl. repeat split; auto. lia.
    + destruct (IH i j a b Hi Hj Hlt) as (i' & j' & H1 & H2 & H3).
      exists (S i'), (S j'). simpl. repeat split; auto. lia.
Qed.

Lemma first_occurrences_order (l : list pstring) :
  forall i j a b,
    nth_error (first_occurrences l) i = Some a ->
    nth_error (first_occurrences l) j = Some b ->
    i < j ->
    exists p q, first_index a l = Some p /\ first_index b l = Some q /\ p < q.
Proof.
  induction l as [|x l IH]; intros i j a b Hi Hj Hlt; simpl in *.
  - destruct i; discriminate.
  - destruct j as [|j]; [lia|]. simpl in Hj.
    assert (Hb : In b l /\ x <> b).
    { apply nth_error_In in Hj. apply in_without in Hj.
      now rewrite first_occurrences_in in Hj. }
    destruct Hb as [Hbl Hxb].
    assert (Hbx : pstring_eqb b x = false) by (apply pstring_eqb_neq; congruence).
    rewrite Hbx.
    destruct i as [|i]; simpl in Hi.
    + inversion Hi; subst a. rewrite pstring_eqb_refl.
      destruct (first_index_in b l Hbl) as [q ->]. simpl.
      exists 0, (S q). repeat split; auto. lia.
    + assert (Ha : In a l /\ x <> a).
      { apply nth_error_In in Hi. apply in_without in Hi.
        now rewrite first_occurrences_in in Hi. }
      destruct Ha as [_ Hxa].
      assert (Hax : pstring_eqb a x = false) by (apply pstring_eqb_neq; congruence).
      rewrite Hax.
      destruct (filter_order _ _ _ _ _ _ Hi Hj) as (i' & j' & Hlt' & Hi' & Hj'); [lia|].
      destruct (IH i' j' a b Hi' Hj' Hlt') as (p & q & -> & -> & Hpq).
      simpl. exists (S p), (S q). repeat split; auto. lia.
Qed.

(** ** The enricher *)

Lemma bind_inl {A B} (tr : list event) (a : A) (f : A -> M B) :
  bind (tr, inl a) f = (tr ++ events (f a), result (f a)).
Proof. unfold bind, events, result. now destruct (f a). Qed.

Lemma bind_inr {A B} (tr : list event) (t : thrown) (f : A -> M B) :
  bind (tr, inr t) f = (tr, inr t).
Proof. reflexivity. Qed.

(** The condition holds for arrays only, so the record of a successful
    lookup is always built from an array. *)
Lemma status_is_success_array (w : World) (data : pval) :
  result (status_is_success w data) = inl true -> exists a, data = PArr a.
Proof.
  unfold status_is_success.
  destruct data as [| b | z | f | s | a]; try (destruct (truthy _); discriminate).
  - destruct (truthy (PStr s)); [|discriminate].
    destruct (string_offset_error w); discriminate.
  - eauto.
Qed.

Lemma getGeolocation_failure (w : World) (ip : pstring) :
  lookup_failure w ip ->
  getGeolocation w ip = ([EvHttpGet (geo_url ip)], inl (minimal_record ip)).
Proof.
  unfold getGeolocation. intros H.
  unfold emit. rewrite bind_inl.
  destruct H as [H | H | a H Hs | v H Hv]; try unfold decoded in H.
  - rewrite H. reflexivity.
  - destruct (file_get_contents w (geo_url ip)); [|reflexivity].
    simpl in H. inversion H as [H']. rewrite H'. reflexivity.
  - destruct (file_get_contents w (geo_url ip)); [|reflexivity].
    simpl in H. inversion H as [H']. rewrite H'.
    unfold status_is_success.
    destruct (truthy (PArr a)); [|reflexivity].
    destruct (arr_read (skey "status") a) as [| | | |s|] eqn:Hst; try reflexivity.
    destruct (pstring_eqb s (str "success")) eqn:Hss; [|reflexivity].
    apply pstring_eqb_eq in Hss. subst s. now elim Hs.
  - destruct (file_get_contents w (geo_url ip)); [|reflexivity].
    simpl in H. inversion H as [H']. rewrite H'.
    unfold status_is_success.
    destruct v as [| b | z | f | s | a]; try contradiction;
      try (destruct (truthy _); reflexivity).
    simpl. destruct Hv as [Hv | Hv]; rewrite Hv; simpl; [reflexivity|].
    destruct (negb (empty_string s)); reflexivity.
Qed.

(** A lookup that does not end in a [TypeError] returns a record, after
    one HTTP request. *)
Lemma getGeolocation_returns (w : World) (ip : pstring) :
  ~ lookup_faults w ip ->
  exists r, getGeolocation w ip = ([EvHttpGet (geo_url ip)], inl r).
Proof.
  unfold lookup_faults, decoded, getGeolocation. intros H.
  unfold emit. rewrite bind_inl.
  destruct (file_get_contents w (geo_url ip)) as [body|]; [|simpl; eauto].
  simpl in H. unfold status_is_success.
  destruct (json_decode w body) as [| b | z | f | s | a] eqn:Hd;
    try (destruct (truthy _); simpl; eauto; fail).
  - simpl. destruct (empty_string s) eqn:He; simpl; [eauto|].
    destruct (string_offset_error w) as [msg|] eqn:Ho; simpl; [|eauto].
    elim H. eauto.
  - destruct (truthy (PArr a)); [|simpl; eauto].
    destruct (arr_read (skey "status") a); simpl; eauto.
    destruct (pstring_eqb _ _); simpl; eauto.
Qed.

(** Every lookup issues exactly one request, whatever its outcome. *)
Lemma getGeolocation_events (w : World) (ip : pstring) :
  events (getGeolocation w ip) = [EvHttpGet (geo_url ip)].
Proof.
  unfold getGeolocation, emit. rewrite bind_inl.
  destruct (file_get_contents w (geo_url ip)) as [body|]; [|reflexivity].
  unfold status_is_success.
  destruct (json_decode w body) as [| b | z | f | s | a];
    try (destruct (truthy _); reflexivity).
  - simpl. destruct (empty_string s); simpl; [reflexivity|].
    destruct (string_offset_error w); reflexivity.
  - destruct (truthy (PArr a)); [|reflexivity].
    destruct (arr_read (skey "status") a); try reflexivity.
    destruct (pstring_eqb _ _); reflexivity.
Qed.

Lemma geo_loop_returns (w : World) (ips : list pstring) :
  forall n index hops,
    n = (index + Z.of_nat (length ips))%Z ->
    (forall ip, In ip ips -> ~ lookup_faults w ip) ->
    exists recs,
      geo_loop w n index ips hops =
        (between_each (EvSleep 700000) (requests ips),
         inl (hops ++ numbered index recs)) /\
      Forall2 (fun ip r => result (getGeolocation w ip) = inl r) ips recs.
Proof.
  induction ips as [|ip rest IH]; intros n index hops Hn Hok.
  - exists []. simpl. rewrite app_nil_r. split; [reflexivity | constructor].
  - destruct (getGeolocation_returns w ip (Hok ip (or_introl eq_refl))) as [r Hr].
    destruct (IH n (index + 1)%Z
                (hops ++ [arr_set (skey "hop") (PInt (index + 1)) r]))
      as (recs & Hloop & Hrecs).
    { simpl length in Hn. lia. }
    { intros ip' Hin. apply Hok. now right. }
    exists (r :: recs). split.
    + cbn [geo_loop]. rewrite Hr, bind_inl.
      cbn [numbered]. simpl length in Hn.
      destruct rest as [|ip2 rest'].
      * assert (Hlt : (index <? n - 1)%Z = false) by (apply Z.ltb_ge; simpl in Hn; lia).
        rewrite Hlt. unfold ret at 1. rewrite bind_inl, Hloop. simpl.
        now rewrite <- app_assoc.
      * assert (Hlt : (index <? n - 1)%Z = true).
        { apply Z.ltb_lt. simpl length in Hn. lia. }
        rewrite Hlt. unfold emit at 1. rewrite bind_inl, Hloop. simpl.
        now rewrite <- app_assoc.
    + constructor; [now rewrite Hr | exact Hrecs].
Qed.

Lemma delays_between_each (ips : list pstring) :
  delays (between_each (EvSleep 700000) (requests ips)) = length ips - 1.
Proof.
  induction ips as [|ip [|ip2 rest] IH]; try reflexivity.
  change (delays (EvHttpGet (geo_url ip) :: EvSleep 700000 ::
                  between_each (EvSleep 700000) (requests (ip2 :: rest)))
          = length (ip :: ip2 :: rest) - 1).
  unfold delays in *. simpl filter. simpl length in *. rewrite IH. lia.
Qed.

Lemma geo_loop_result (w : World) (ips : list pstring) :
  forall n index hops0 hops,
    result (geo_loop w n index ips hops0) = inl hops ->
    exists recs,
      hops = hops0 ++ numbered index recs /\
      Forall2 (fun ip r => result (getGeolocation w ip) = inl r) ips recs.
Proof.
  induction ips as [|ip rest IH]; intros n index hops0 hops H.
  - simpl in H. inversion H; subst. exists []. simpl.
    rewrite app_nil_r. split; [reflexivity | constructor].
  - cbn [geo_loop] in H.
    destruct (getGeolocation w ip) as [tr [r|t]] eqn:Hg.
    + rewrite bind_inl in H. unfold result at 1 in H. cbn [snd] in H.
      assert (Hstep : exists tr', (if (index <? n - 1)%Z
                                   then emit (EvSleep 700000) else ret tt)
                                  = (tr', inl tt)).
      { destruct (index <? n - 1)%Z; unfold emit, ret; eauto. }
      destruct Hstep as [tr' Hstep]. rewrite Hstep, bind_inl in H.
      unfold result at 1 in H. cbn [snd] in H.
      apply IH in H. destruct H as (recs & -> & HF).
      exists (r :: recs). split.
      * rewrite <- app_assoc. reflexivity.
      * constructor; [now rewrite Hg | exact HF].
    + rewrite bind_inr in H. discriminate.
Qed.

(** The enricher throws nothing that [catch (Exception $e)] would catch. *)
Lemma geo_loop_no_exception (w : World) (ips : list pstring) :
  forall n index hops msg,
    result (geo_loop w n index ips hops) <> inr (Exception msg).
Proof.
  induction ips as [|ip rest IH]; intros n index hops msg; [discriminate|].
  cbn [geo_loop].
  destruct (getGeolocation w ip) as [tr [r|t]] eqn:Hg.
  - rewrite bind_inl. unfold result at 1. cbn [snd].
    destruct (index <? n - 1)%Z; unfold emit, ret; rewrite bind_inl; apply IH.
  - rewrite bind_inr. unfold result, snd. intros H. inversion H; subst t.
    revert Hg. unfold getGeolocation, emit. rewrite bind_inl.
    destruct (file_get_contents w (geo_url ip)) as [body|]; [|discriminate].
    unfold status_is_success.
    destruct (json_decode w body) as [| b | z | f | s | a];
      try (destruct (truthy _); discriminate).
    + simpl. destruct (empty_string s); simpl; [discriminate|].
      destruct (string_offset_error w); discriminate.
    + destruct (truthy (PArr a)); [|discriminate].
      destruct (arr_read (skey "status") a); try discriminate.
      destruct (pstring_eqb _ _); discriminate.
Qed.

Lemma pkey_eqb_refl (k : pkey) : pkey_eqb k k = true.
Proof. destruct k; simpl; [apply Z.eqb_refl | apply pstring_eqb_refl]. Qed.

Lemma arr_get_set (k : pkey) (v : pval) (a : parray) :
  arr_get k (arr_set k v a) = Some v.
Proof.
  induction a as [|[k' v'] a IH]; simpl.
  - now rewrite pkey_eqb_refl.
  - destruct (pkey_eqb k k') eqn:Hk; simpl.
    + now rewrite pkey_eqb_refl.
    + now rewrite Hk.
Qed.

Lemma numbered_length (recs : list parray) : forall index,
  length (numbered index recs) = length recs.
Proof. induction recs; intros; simpl; auto. Qed.

Lemma numbered_nth (recs : list parray) : forall index i h,
  nth_error (numbered index recs) i = Some h ->
  exists r, nth_error recs i = Some r /\
            h = arr_set (skey "hop") (PInt (index + Z.of_nat i + 1)) r.
Proof.
  induction recs as [|r recs IH]; intros index i h H; simpl in H.
  - destruct i; discriminate.
  - destruct i as [|i]; simpl in H.
    + inversion H; subst. exists r. split; [reflexivity|].
      do 2 f_equal. simpl. lia.
    + apply IH in H. destruct H as (r' & Hr & ->).
      exists r'. split; [exact Hr|]. do 2 f_equal. lia.
Qed.

(** ** The pipeline *)

Lemma pipeline_spec (w : World) (target : pstring) :
  pipeline w target =
  match raw_output w target with
  | [] => ([EvExec (command_for w target)], inr (Exception no_output_message))
  | _ :: _ =>
      match hop_addresses w target with
      | [] => ([EvExec (command_for w target)], inr (Exception no_hops_message))
      | _ :: _ =>
          (EvExec (command_for w target)
             :: events (getGeolocations w (hop_addresses w target)),
           match result (getGeolocations w (hop_addresses w target)) with
           | inl hops => inl (success_response w target hops)
           | inr t => inr t
           end)
      end
  end.
Proof.
  unfold pipeline, executeTraceroute, hop_addresses, raw_output.
  destruct (exec w (command_for w target)) as [out rc].
  unfold emit, ret, throw, bind, events, result.
  cbn [fst snd output isWindows app].
  destruct out as [|l out]; [reflexivity|].
  destruct (parseTraceroute (l :: out) (on_windows w)) as [|ip ips]; [reflexivity|].
  destruct (getGeolocations w (ip :: ips)) as [tr [hops|t]];
    cbn [fst snd]; rewrite ?app_nil_r; reflexivity.
Qed.

Lemma main_valid (w : World) (param : option pstring) (target : pstring) :
  validate param = Valid target -> main w param = try_pipeline w target.
Proof. unfold main. now intros ->. Qed.

Lemma parse_nil (isWindows : bool) : parseTraceroute [] isWindows = [].
Proof. reflexivity. Qed.

Lemma geo_loop_exit_status (rc : pstring -> Z) (w : World) (ips : list pstring) :
  forall n index hops,
    geo_loop (with_exit_status rc w) n index ips hops = geo_loop w n index ips hops.
Proof.
  induction ips as [|ip rest IH]; intros n index hops; [reflexivity|].
  cbn [geo_loop].
  change (getGeolocation (with_exit_status rc w) ip) with (getGeolocation w ip).
  destruct (getGeolocation w ip) as [tr [r|t]]; [|reflexivity].
  rewrite !bind_inl.
  destruct (index <? n - 1)%Z; unfold emit, ret; rewrite !bind_inl, IH; reflexivity.
Qed.

Lemma numbered_nth_fwd (recs : list parray) : forall index i r,
  nth_error recs i = Some r ->
  nth_error (numbered index recs) i =
    Some (arr_set (skey "hop") (PInt (index + Z.of_nat i + 1)) r).
Proof.
  induction recs as [|r0 recs IH]; intros index i r H.
  - destruct i; discriminate.
  - destruct i as [|i]; simpl in *.
    + inversion H; subst. do 3 f_equal. lia.
    + rewrite (IH _ _ _ H). do 3 f_equal. lia.
Qed.

Lemma Forall2_nth {A B} (P : A -> B -> Prop) (l1 : list A) (l2 : list B) :
  Forall2 P l1 l2 ->
  forall i a, nth_error l1 i = Some a ->
              exists b, nth_error l2 i = Some b /\ P a b.
Proof.
  induction 1 as [|x y l1 l2 Hxy _ IH]; intros i a Hi.
  - destruct i; discriminate.
  - destruct i as [|i]; simpl in *.
    + inversion Hi; subst. eauto.
    + eauto.
Qed.

Lemma Forall2_nth_r {A B} (P : A -> B -> Prop) (l1 : list A) (l2 : list B) :
  Forall2 P l1 l2 ->
  forall i b, nth_error l2 i = Some b ->
              exists a, nth_error l1 i = Some a /\ P a b.
Proof.
  induction 1 as [|x y l1 l2 Hxy _ IH]; intros i b Hi.
  - destruct i; discriminate.
  - destruct i as [|i]; simpl in *.
    + inversion Hi; subst. eauto.
    + eauto.
Qed.

Lemma hop_addresses_raw (w : World) (target : pstring) :
  hop_addresses w target <> [] -> raw_output w target <> [].
Proof.
  unfold hop_addresses. intros H Hraw. rewrite Hraw in H. now apply H.
Qed.

(** The response of a request that passed validation, by cases. *)
Lemma try_pipeline_no_output (w : World) (target : pstring) :
  raw_output w target = [] ->
  try_pipeline w target =
    ([EvExec (command_for w target)], error_response no_output_message target).
Proof.
  intros H. unfold try_pipeline. rewrite pipeline_spec, H. reflexivity.
Qed.

Lemma try_pipeline_no_hops (w : World) (target : pstring) :
  raw_output w target <> [] ->
  hop_addresses w target = [] ->
  try_pipeline w target =
    ([EvExec (command_for w target)], error_response no_hops_message target).
Proof.
  intros Hraw H. unfold try_pipeline. rewrite pipeline_spec, H.
  destruct (raw_output w target); [congruence | reflexivity].
Qed.

Lemma try_pipeline_enriched (w : World) (target : pstring) :
  hop_addresses w target <> [] ->
  try_pipeline w target =
    (EvExec (command_for w target)
       :: events (getGeolocations w (hop_addresses w target)),
     match result (getGeolocations w (hop_addresses w target)) with
     | inl hops => success_response w target hops
     | inr (Exception msg) => error_response msg target
     | inr (Error msg) =>
         error_response (str "An unexpected error occurred: " ++ msg) target
     end).
Proof.
  intros H. pose proof (hop_addresses_raw _ _ H) as Hraw.
  unfold try_pipeline. rewrite pipeline_spec.
  destruct (raw_output w target); [congruence|].
  destruct (hop_addresses w target); [congruence|].
  destruct (result (getGeolocations w (p0 :: l0))) as [hops|[msg|msg]]; reflexivity.
Qed.

(** A lookup can end the request: on PHP 8 an answer that is a bare JSON
    string makes [$data['status']] throw, the loop stops after that
    request, and the outer [catch (Throwable $e)] writes the envelope. *)
Example bare_string_answer_ends_request :
  main bare_string_world example_com =
    ([ EvExec (str "traceroute -m 15 -w 1 'example.com'");
       EvHttpGet (geo_url (str "192.0.2.1")) ],
     error_response
       (str "An unexpected error occurred: Cannot access offset of type string on string")
       (str "example.com")).
Proof. reflexivity. Qed.

(** ** The patterns of the parser *)

Ltac class_lia :=
  unfold hex_or_colon, is_hex, is_space, is_digit, is_upper, is_lower, between in *;
  repeat rewrite ?orb_true_iff, ?orb_false_iff, ?andb_true_iff, ?andb_false_iff,
    ?Nat.leb_le, ?Nat.leb_gt, ?Nat.eqb_eq, ?Nat.eqb_neq in *;
  lia.

Lemma digit_not_space (c : ascii) : is_digit c = true -> is_space c = false.
Proof. intros H. class_lia. Qed.

Lemma space_not_digit (c : ascii) : is_space c = true -> is_digit c = false.
Proof. intros H. class_lia. Qed.

Lemma is_char_neq (x c : ascii) : c <> x -> is_char x c = false.
Proof.
  intros H. destruct (is_char x c) eqn:E; [|reflexivity].
  apply is_char_eq in E. contradiction.
Qed.

Lemma head_class (c : ascii -> bool) (p rest : pstring) :
  p <> [] -> forallb c p = true ->
  forall d : ascii -> bool,
    (forall x, c x = true -> d x = false) ->
    match p ++ rest with [] => True | y :: _ => d y = false end.
Proof.
  intros Hne Hp d Hd. destruct p as [|x p]; [congruence|].
  simpl in *. apply andb_prop in Hp. now apply Hd.
Qed.

(** One atom taking all it can, followed by a match of the others. *)
Lemma match_atoms_cons_max (a : atom) (ats : list atom) (fin : pstring -> bool)
  (p r : pstring) (ps : list pstring) :
  fits a p ->
  (hi a = Some (length p) \/
   match r with [] => True | y :: _ => cls a y = false end) ->
  match_atoms ats fin r = Some ps ->
  match_atoms (a :: ats) fin (p ++ r) = Some (p :: ps).
Proof.
  intros (Hp & Hl & Hb) Hmax Hm. simpl.
  apply repeat_greedy_max; auto. simpl. now rewrite Hm.
Qed.

Lemma fits_one (x : ascii) : fits (one (is_char x)) [x].
Proof.
  repeat split; simpl.
  - unfold is_char. now rewrite Ascii.eqb_refl.
  - lia.
  - intros n H. inversion H. lia.
Qed.

Lemma fits_plus (c : ascii -> bool) (p : pstring) :
  p <> [] -> forallb c p = true -> fits (plus c) p.
Proof.
  intros Hne Hp. repeat split; simpl; auto.
  - destruct p; [congruence | simpl; lia].
  - discriminate.
Qed.

Lemma fits_star (c : ascii -> bool) (p : pstring) :
  forallb c p = true -> fits (star c) p.
Proof. intros Hp. repeat split; simpl; auto; [lia | discriminate]. Qed.

(** The hop index followed by three asterisks: the line is skipped. *)
Lemma asterisks_match (s0 d s1 s2 s3 rest : pstring) :
  forallb is_space s0 = true ->
  d <> [] -> forallb is_digit d = true ->
  s1 <> [] -> forallb is_space s1 = true ->
  s2 <> [] -> forallb is_space s2 = true ->
  s3 <> [] -> forallb is_space s3 = true ->
  preg_match asterisks_re
    (s0 ++ d ++ s1 ++ ["*"%char] ++ s2 ++ ["*"%char] ++ s3 ++ ["*"%char] ++ rest)
  = true.
Proof.
  intros H0 Hd Hdd H1 Hs1 H2 Hs2 H3 Hs3.
  unfold preg_match. rewrite search_caret by reflexivity.
  unfold match_here, asterisks_re, atoms, fin_of, dollar.
  erewrite match_atoms_cons_max; [reflexivity | now apply fits_star | | ].
  { right. apply (head_class is_digit); auto. apply digit_not_space. }
  erewrite match_atoms_cons_max; [reflexivity | now apply fits_plus | | ].
  { right. apply (head_class is_space); auto. apply space_not_digit. }
  erewrite match_atoms_cons_max; [reflexivity | now apply fits_plus | | ].
  { right. reflexivity. }
  erewrite match_atoms_cons_max; [reflexivity | apply fits_one | now left | ].
  erewrite match_atoms_cons_max; [reflexivity | now apply fits_plus | | ].
  { right. reflexivity. }
  erewrite match_atoms_cons_max; [reflexivity | apply fits_one | now left | ].
  erewrite match_atoms_cons_max; [reflexivity | now apply fits_plus | | ].
  { right. reflexivity. }
  erewrite match_atoms_cons_max; [reflexivity | apply fits_one | now left | ].
  reflexivity.
Qed.

Lemma unresponsive_no_address (line : pstring) :
  unresponsive line = true -> line_address line = None.
Proof.
  intros H. unfold line_address. rewrite H.
  now destruct (empty_string (trim line)).
Qed.

Lemma search_here (re : regex) (s : pstring) (ps : list pstring) :
  match_here re s = Some ps -> search re s = Some ps.
Proof. intros H. destruct s; simpl; now rewrite H. Qed.

(** No match at the offsets inside [pre]: the search goes on after it. *)
Lemma search_skip (re : regex) (pre suf : pstring) :
  caret re = false ->
  (forall a b, pre = a ++ b -> b <> [] -> match_here re (b ++ suf) = None) ->
  search re (pre ++ suf) = search re suf.
Proof.
  intros Hc. induction pre as [|x pre IH]; intros Hnone; [reflexivity|].
  assert (H0 : match_here re (x :: pre ++ suf) = None).
  { apply (Hnone [] (x :: pre)); [reflexivity | discriminate]. }
  simpl. rewrite H0, Hc. apply IH. intros a b Hab Hb.
  apply (Hnone (x :: a) b); [now rewrite Hab | exact Hb].
Qed.

Lemma search_none (re : regex) (s : pstring) :
  (forall a b, s = a ++ b -> match_here re b = None) -> search re s = None.
Proof.
  induction s as [|x s IH]; intros Hnone; simpl.
  - now rewrite (Hnone [] [] eq_refl).
  - rewrite (Hnone [] (x :: s) eq_refl).
    destruct (caret re); [reflexivity|].
    apply IH. intros a b Hab. apply (Hnone (x :: a) b). now rewrite Hab.
Qed.

Lemma fits_one_inv (x : ascii) (p : pstring) :
  fits (one (is_char x)) p -> p = [x].
Proof.
  intros (Hp & Hl & Hb). simpl in *. specialize (Hb 1 eq_refl).
  destruct p as [|c [|d p]]; simpl in *; try lia.
  rewrite andb_true_r in Hp. apply is_char_eq in Hp. now subst.
Qed.

Lemma fits_opt_inv (x : ascii) (p : pstring) :
  fits (opt (is_char x)) p -> p = [] \/ p = [x].
Proof.
  intros (Hp & Hl & Hb). simpl in *. specialize (Hb 1 eq_refl).
  destruct p as [|c [|d p]]; simpl in *; try lia; auto.
  rewrite andb_true_r in Hp. apply is_char_eq in Hp. subst. now right.
Qed.

Lemma fits_rep_inv (c : ascii -> bool) (a b : nat) (p : pstring) :
  fits (rep c a b) p -> forallb c p = true /\ a <= length p <= b.
Proof.
  intros (Hp & Hl & Hb). simpl in *. specialize (Hb b eq_refl). auto.
Qed.

Lemma fits_plus_inv (c : ascii -> bool) (p : pstring) :
  fits (plus c) p -> forallb c p = true /\ p <> [].
Proof.
  intros (Hp & Hl & Hb). simpl in *. split; [exact Hp|].
  destruct p; simpl in Hl; [lia | congruence].
Qed.

(** What a match of the IPv6 pattern looks like. *)
Lemma ipv6_match_shape (s : pstring) (ps : list pstring) :
  match_here ipv6_re s = Some ps ->
  exists p1 p3 rest,
    ps = [p1; [":"%char]; p3] /\ s = p1 ++ ":"%char :: p3 ++ rest /\
    forallb is_hex p1 = true /\ 1 <= length p1 <= 4 /\
    forallb hex_or_colon p3 = true /\ p3 <> [].
Proof.
  intros H. apply match_atoms_sound in H.
  destruct H as [HF (rest & Hs & _)].
  inversion HF as [|a1 p1 l1 l1' H1 HF1]; subst.
  inversion HF1 as [|a2 p2 l2 l2' H2 HF2]; subst.
  inversion HF2 as [|a3 p3 l3 l3' H3 HF3]; subst.
  inversion HF3; subst.
  apply fits_one_inv in H2. subst p2.
  apply fits_rep_inv in H1. destruct H1 as [Hh Hl].
  apply fits_plus_inv in H3. destruct H3 as [Hc Hne].
  exists p1, p3, rest. simpl. rewrite app_nil_r, <- app_assoc.
  repeat split; auto; lia.
Qed.

Lemma hex_no_colon (p : pstring) : forallb is_hex p = true -> ~ In ":"%char p.
Proof.
  intros H Hin. rewrite forallb_forall in H. apply H in Hin. discriminate.
Qed.

Lemma first_split_unique (c : ascii) (u : pstring) : forall v u' v',
  ~ In c u -> ~ In c u' -> u ++ c :: v = u' ++ c :: v' -> u = u'.
Proof.
  induction u as [|x u IH]; intros v u' v' Hu Hu' H; destruct u' as [|y u'];
    simpl in *; try reflexivity.
  - inversion H; subst. elim Hu'. auto.
  - inversion H; subst. elim Hu. auto.
  - inversion H; subst. f_equal. eapply IH; eauto.
Qed.

(** The IPv6 pattern matches nowhere in a string without a colon, and
    not at an offset more than four characters before the first colon. *)
Lemma ipv6_needs_colon (s : pstring) :
  ~ In ":"%char s -> search ipv6_re s = None.
Proof.
  intros Hs. apply search_none. intros a b Hab.
  destruct (match_here ipv6_re b) as [ps|] eqn:Hm; [|reflexivity].
  apply ipv6_match_shape in Hm.
  destruct Hm as (p1 & p3 & rest & _ & Hb & _).
  elim Hs. rewrite Hab, Hb, !in_app_iff. simpl. auto.
Qed.

Lemma ipv6_far_colon (u rest : pstring) :
  ~ In ":"%char u -> 4 < length u ->
  match_here ipv6_re (u ++ ":"%char :: rest) = None.
Proof.
  intros Hu Hlen.
  destruct (match_here ipv6_re _) as [ps|] eqn:Hm; [|reflexivity].
  apply ipv6_match_shape in Hm.
  destruct Hm as (p1 & p3 & rest' & _ & Hs & Hh & Hl & _).
  apply first_split_unique in Hs; [|exact Hu|now apply hex_no_colon].
  subst. lia.
Qed.

Lemma literal6_here (post : pstring) :
  match post with [] => True | c :: _ => hex_or_colon c = false end ->
  match_here ipv6_re (literal6 ++ post)
    = Some [str "2001"; str ":"; str "4860:0:1::67e"].
Proof.
  intros Hpost.
  change (literal6 ++ post)
    with (str "2001" ++ str ":" ++ str "4860:0:1::67e" ++ post).
  unfold match_here, ipv6_re, atoms, fin_of, dollar.
  erewrite match_atoms_cons_max; [reflexivity | | now left | ].
  { repeat split; simpl; [lia | intros n H; inversion H; lia]. }
  erewrite match_atoms_cons_max; [reflexivity | apply fits_one | now left | ].
  erewrite match_atoms_cons_max; [reflexivity | | right; exact Hpost | reflexivity].
  apply fits_plus; [discriminate | reflexivity].
Qed.

Lemma literal6_found (pre post : pstring) :
  ~ In ":"%char pre ->
  match post with [] => True | c :: _ => hex_or_colon c = false end ->
  preg_match_group1 ipv6_re (pre ++ literal6 ++ post) = Some literal6.
Proof.
  intros Hpre Hpost. unfold preg_match_group1.
  rewrite search_skip; [|reflexivity|].
  - rewrite (search_here _ _ _ (literal6_here post Hpost)). reflexivity.
  - intros a b Hab Hb.
    change (b ++ literal6 ++ post)
      with (b ++ str "2001" ++ ":"%char :: str "4860:0:1::67e" ++ post).
    rewrite app_assoc. apply ipv6_far_colon.
    + rewrite in_app_iff. intros [H | H].
      * apply Hpre. rewrite Hab, in_app_iff. auto.
      * simpl in H. repeat (destruct H as [H | H]; [discriminate|]). exact H.
    + rewrite length_app. destruct b; [congruence | simpl; lia].
Qed.

Lemma not_empty_if_contains (line : pstring) (c : ascii) :
  In c line -> trim_char c = false -> c <> "0"%char ->
  empty_string (trim line) = false.
Proof.
  intros Hin Hc H0. pose proof (trim_keeps line c Hin Hc) as Ht.
  destruct (empty_string (trim line)) eqn:He; [|reflexivity].
  apply empty_string_spec in He. destruct He as [He | He]; rewrite He in Ht.
  - destruct Ht.
  - simpl in Ht. destruct Ht as [Ht | []]. congruence.
Qed.

(** A line with the literal 2001:4860:0:1::67e in it, no colon before it
    and no hexadecimal digit or colon right after it: the literal is the
    address of the line. *)
Lemma literal6_address (pre post : pstring) :
  ~ In ":"%char pre ->
  match post with [] => True | c :: _ => hex_or_colon c = false end ->
  unresponsive (pre ++ literal6 ++ post) = false ->
  line_address (pre ++ literal6 ++ post) = Some literal6.
Proof.
  intros Hpre Hpost Hun. unfold line_address.
  rewrite (not_empty_if_contains _ ":"%char), Hun, literal6_found; auto.
  - rewrite !in_app_iff. right. left. unfold literal6. simpl.
    repeat (first [left; reflexivity | right]).
  - discriminate.
Qed.

(** What a match of the IPv4 pattern looks like. *)
Lemma ipv4_match_shape (s : pstring) (ps : list pstring) :
  match_here ipv4_re s = Some ps ->
  exists o d1 d2 d3 d4 c rest,
    ps = [o; d1; ["."%char]; d2; ["."%char]; d3; ["."%char]; d4; c] /\
    s = o ++ d1 ++ "."%char :: d2 ++ "."%char :: d3 ++ "."%char :: d4 ++ c ++ rest /\
    (o = [] \/ o = ["["%char]) /\ (c = [] \/ c = ["]"%char]) /\
    Forall (fun d => forallb is_digit d = true /\ 1 <= length d <= 3)
      [d1; d2; d3; d4].
Proof.
  intros H. apply match_atoms_sound in H.
  destruct H as [HF (rest & Hs & _)].
  inversion HF as [|a0 o l0 l0' H0 HF0]; subst.
  inversion HF0 as [|a1 d1 l1 l1' H1 HF1]; subst.
  inversion HF1 as [|a2 p2 l2 l2' H2 HF2]; subst.
  inversion HF2 as [|a3 d2 l3 l3' H3 HF3]; subst.
  inversion HF3 as [|a4 p4 l4 l4' H4 HF4]; subst.
  inversion HF4 as [|a5 d3 l5 l5' H5 HF5]; subst.
  inversion HF5 as [|a6 p6 l6 l6' H6 HF6]; subst.
  inversion HF6 as [|a7 d4 l7 l7' H7 HF7]; subst.
  inversion HF7 as [|a8 c l8 l8' H8 HF8]; subst.
  inversion HF8; subst.
  apply fits_one_inv in H2, H4, H6. subst p2 p4 p6.
  apply fits_opt_inv in H0, H8.
  apply fits_rep_inv in H1, H3, H5, H7.
  exists o, d1, d2, d3, d4, c, rest. simpl.
  rewrite app_nil_r. repeat (rewrite <- app_assoc; simpl).
  split; [reflexivity|]. split; [reflexivity|]. split; [exact H0|].
  split; [exact H8|].
  repeat (apply Forall_cons; [assumption|]). apply Forall_nil.
Qed.

Lemma dot_then_digit_suffix (a b : pstring) :
  dot_then_digit (a ++ b) = false -> dot_then_digit b = false.
Proof.
  induction a as [|x a IH]; simpl; [auto|].
  intros H. apply orb_false_iff in H. now apply IH.
Qed.

Lemma dot_then_digit_at (u v : pstring) (x : ascii) :
  dot_then_digit (u ++ "."%char :: x :: v) = false -> is_digit x = false.
Proof.
  intros H. apply dot_then_digit_suffix in H. simpl in H.
  apply orb_false_iff in H. tauto.
Qed.

(** The IPv4 pattern does not match at an offset before a bracket when
    no dot before the bracket is followed by a digit. *)
Lemma ipv4_no_early_match (b rest : pstring) :
  b <> [] -> dot_then_digit b = false ->
  match_here ipv4_re (b ++ "["%char :: rest) = None.
Proof.
  intros Hb Hdd.
  destruct (match_here ipv4_re _) as [ps|] eqn:Hm; [exfalso|reflexivity].
  apply ipv4_match_shape in Hm.
  destruct Hm as (o & d1 & d2 & d3 & d4 & c & rest' & _ & Hs & Ho & _ & HD).
  inversion HD as [|? ? [Hd1 Hl1] HD1]; subst.
  inversion HD1 as [|? ? [Hd2 Hl2] _]; subst.
  destruct d2 as [|x d2]; [simpl in Hl2; lia|].
  simpl in Hd2. apply andb_prop in Hd2. destruct Hd2 as [Hx _].
  assert (Htail : forall y t, o ++ d1 = y :: t -> forallb is_digit t = true).
  { intros y t Hyt. destruct Ho as [-> | ->]; simpl in Hyt.
    - subst d1. simpl in Hd1. now apply andb_prop in Hd1.
    - now inversion Hyt; subst. }
  rewrite app_assoc in Hs. simpl in Hs.
  apply app_eq_app in Hs. destruct Hs as [l [[Hbl Hl] | [Hu Hl]]].
  - destruct l as [|c0 l]; simpl in Hl; [discriminate|].
    injection Hl as Hc0 Hl'.
    destruct l as [|c1 l]; simpl in Hl'.
    + injection Hl' as Hx' _. rewrite Hx' in Hx. discriminate Hx.
    + injection Hl' as Hx' _.
      rewrite Hbl, <- Hc0, <- Hx' in Hdd.
      apply dot_then_digit_at in Hdd. congruence.
  - destruct l as [|c0 l]; simpl in Hl; [discriminate|].
    injection Hl as Hc0 _.
    destruct b as [|b0 b]; [congruence|].
    simpl in Hu. apply Htail in Hu.
    rewrite forallb_forall in Hu.
    assert (Hin : In c0 (b ++ c0 :: l)) by (rewrite in_app_iff; simpl; auto).
    apply Hu in Hin. rewrite <- Hc0 in Hin. discriminate Hin.
Qed.

Lemma bracketed4_here (post : pstring) :
  match_here ipv4_re (bracketed4 ++ post)
    = Some [ str "["; str "192"; str "."; str "0"; str "."; str "2"; str ".";
             str "5"; str "]" ].
Proof.
  change (bracketed4 ++ post)
    with (str "[" ++ str "192" ++ str "." ++ str "0" ++ str "." ++ str "2"
            ++ str "." ++ str "5" ++ str "]" ++ post).
  unfold match_here, ipv4_re, atoms, fin_of, dollar.
  assert (Hd : forall d, d <> [] -> forallb is_digit d = true -> length d <= 3 ->
                         fits (rep is_digit 1 3) d).
  { intros d Hne Hall Hlen. repeat split; simpl; auto.
    - destruct d; [congruence | simpl; lia].
    - intros n H. inversion H. lia. }
  erewrite match_atoms_cons_max; [reflexivity | | now left | ].
  { repeat split; simpl; [lia | intros n H; inversion H; lia]. }
  erewrite match_atoms_cons_max; [reflexivity | | now left | ].
  { apply Hd; [discriminate | reflexivity | simpl; lia]. }
  erewrite match_atoms_cons_max; [reflexivity | apply fits_one | now left | ].
  erewrite match_atoms_cons_max; [reflexivity | | right; reflexivity | ].
  { apply Hd; [discriminate | reflexivity | simpl; lia]. }
  erewrite match_atoms_cons_max; [reflexivity | apply fits_one | now left | ].
  erewrite match_atoms_cons_max; [reflexivity | | right; reflexivity | ].
  { apply Hd; [discriminate | reflexivity | simpl; lia]. }
  erewrite match_atoms_cons_max; [reflexivity | apply fits_one | now left | ].
  erewrite match_atoms_cons_max; [reflexivity | | right; reflexivity | ].
  { apply Hd; [discriminate | reflexivity | simpl; lia]. }
  erewrite match_atoms_cons_max; [reflexivity | | now left | reflexivity].
  repeat split; simpl; [lia | intros n H; inversion H; lia].
Qed.

(** A line with [192.0.2.5] in brackets, no colon in the line and, before
    the bracket, no dot followed by a digit: the address of the line is
    192.0.2.5, without the brackets. *)
Lemma bracketed4_address (pre post : pstring) :
  ~ In ":"%char pre -> ~ In ":"%char post ->
  dot_then_digit pre = false ->
  unresponsive (pre ++ bracketed4 ++ post) = false ->
  line_address (pre ++ bracketed4 ++ post) = Some literal4.
Proof.
  intros Hpre Hpost Hdd Hun. unfold line_address.
  rewrite (not_empty_if_contains _ "["%char), Hun; try discriminate.
  - unfold preg_match_group1 at 1. rewrite ipv6_needs_colon.
    + unfold preg_match_group1. rewrite search_skip; [|reflexivity|].
      * rewrite (search_here _ _ _ (bracketed4_here post)). reflexivity.
      * intros a b Hab Hb. apply ipv4_no_early_match; [exact Hb|].
        rewrite Hab in Hdd. now apply dot_then_digit_suffix in Hdd.
    + rewrite !in_app_iff. intros [H | [H | H]]; auto.
      unfold bracketed4 in H. simpl in H.
      repeat (destruct H as [H | H]; [discriminate|]). exact H.
  - rewrite !in_app_iff. right. left. left. reflexivity.
  - reflexivity.
Qed.

(** An address the parser takes from a line has a colon in it, or three
    dots: it is not a numeric string. *)
Lemma line_address_not_numeric (line ip : pstring) :
  line_address line = Some ip ->
  In ":"%char ip \/
  exists d1 d2 d3 d4, ip = d1 ++ "."%char :: d2 ++ "."%char :: d3 ++ "."%char :: d4.
Proof.
  unfold line_address.
  destruct (empty_string (trim line)); [discriminate|].
  destruct (unresponsive line); [discriminate|].
  unfold preg_match_group1.
  destruct (search ipv6_re line) as [ps|] eqn:H6.
  - intros H. inversion H; subst ip. left.
    apply search_sound in H6. destruct H6 as (pre & suf & _ & Hm & _).
    apply ipv6_match_shape in Hm.
    destruct Hm as (p1 & p3 & rest & -> & _). simpl.
    rewrite !in_app_iff. simpl. auto.
  - destruct (search ipv4_re line) as [ps|] eqn:H4; [|discriminate].
    intros H. inversion H; subst ip. right.
    apply search_sound in H4. destruct H4 as (pre & suf & _ & Hm & _).
    apply ipv4_match_shape in Hm.
    destruct Hm as (o & d1 & d2 & d3 & d4 & c & rest & -> & _).
    exists d1, d2, d3, d4. simpl. rewrite app_nil_r.
    repeat (rewrite <- app_assoc; simpl). reflexivity.
Qed.

Lemma parse_one_line (line : pstring) (flag : bool) :
  parseTraceroute [line] flag =
  match line_address line with
  | Some ip => [ip]
  | None => []
  end.
Proof.
  unfold parseTraceroute. simpl. unfold parse_line.
  now destruct (line_address line).
Qed.

(** * The properties of the specification *)

(** C10: for the target "0", which is not empty after trimming and has
    only allowed characters, the endpoint answers 'Target parameter is
    required' and runs nothing: [empty] takes the string "0" for empty. *)
Theorem target_zero_is_missing (w : World) :
  trim (str "0") = str "0" /\
  trim (str "0") <> [] /\
  preg_match target_re (str "0") = true /\
  validate (Some (str "0")) = Missing /\
  main w (Some (str "0")) = ([], missing_response) /\
  arr_get (skey "error") (snd (main w (Some (str "0"))))
    = Some (sval "Target parameter is required").
Proof.
  repeat split; try reflexivity. discriminate.
Qed.

(** C5: when the traceroute command printed lines and the parser found
    no address in them, the request ends with the error envelope 'No
    valid IP addresses found in traceroute output': no lookup is made and
    no success response is written. *)
Theorem no_hops_is_fatal (w : World) (param : option pstring) (target : pstring) :
  validate param = Valid target ->
  raw_output w target <> [] ->
  hop_addresses w target = [] ->
  main w param =
    ([EvExec (command_for w target)], error_response no_hops_message target) /\
  arr_get (skey "error") (snd (main w param)) = Some (PStr no_hops_message) /\
  arr_get (skey "success") (snd (main w param)) = None /\
  arr_get (skey "hops") (snd (main w param)) = None.
Proof.
  intros Hv Hraw Hips.
  rewrite (main_valid w _ _ Hv), (try_pipeline_no_hops _ _ Hraw Hips).
  repeat split; reflexivity.
Qed.

Lemma no_hops_is_fatal_witness :
  raw_output silent_world (str "example.com") = [str " 1  * * *"; str " 2  * * *"] /\
  snd (main silent_world example_com)
    = error_response no_hops_message (str "example.com").
Proof.
  split; [reflexivity|].
  assert (Hv : validate example_com = Valid (str "example.com")) by reflexivity.
  assert (Hraw : raw_output silent_world (str "example.com") <> []) by discriminate.
  assert (Hips : hop_addresses silent_world (str "example.com") = []) by reflexivity.
  destruct (no_hops_is_fatal silent_world example_com _ Hv Hraw Hips) as [H _].
  rewrite H. reflexivity.
Defined.

(** C8: the invocation is fatal ('Traceroute command failed or returned
    no output') exactly when the command printed no line, and the exit
    status is never looked at: with any other exit status, the events and
    the response are the same. *)
Theorem discovery_failure_iff_no_output
  (w : World) (param : option pstring) (target : pstring) :
  validate param = Valid target ->
  (snd (main w param) = error_response no_output_message target
   <-> raw_output w target = []) /\
  (forall rc, main (with_exit_status rc w) param = main w param).
Proof.
  intros Hv. split; [split|].
  - intros H. rewrite (main_valid w _ _ Hv) in H.
    destruct (raw_output w target) as [|l out] eqn:Hraw; [reflexivity|].
    exfalso.
    destruct (hop_addresses w target) as [|ip ips] eqn:Hips.
    + rewrite try_pipeline_no_hops in H; [|congruence|exact Hips].
      simpl in H. inversion H.
    + rewrite try_pipeline_enriched in H by congruence. simpl snd in H.
      destruct (result (getGeolocations w (hop_addresses w target)))
        as [hops|[msg|msg]] eqn:Hr.
      * inversion H.
      * exact (geo_loop_no_exception _ _ _ _ _ _ Hr).
      * inversion H.
  - intros Hraw. rewrite (main_valid w _ _ Hv), try_pipeline_no_output by exact Hraw.
    reflexivity.
  - intros rc. rewrite !(main_valid _ _ _ Hv).
    unfold try_pipeline. rewrite !pipeline_spec.
    change (raw_output (with_exit_status rc w) target) with (raw_output w target).
    change (hop_addresses (with_exit_status rc w) target) with (hop_addresses w target).
    change (command_for (with_exit_status rc w) target) with (command_for w target).
    unfold getGeolocations. rewrite geo_loop_exit_status. reflexivity.
Qed.

Lemma discovery_failure_witness :
  snd (main (sample_world [] 0 no_lookup no_json None) example_com)
    = error_response no_output_message (str "example.com") /\
  main (with_exit_status (fun _ => 1%Z) offline_world) example_com
    = main offline_world example_com.
Proof.
  assert (Hv : validate example_com = Valid (str "example.com")) by reflexivity.
  split.
  - apply (proj1 (discovery_failure_iff_no_output
                    (sample_world [] 0 no_lookup no_json None) example_com _ Hv)).
    reflexivity.
  - apply (proj2 (discovery_failure_iff_no_output offline_world example_com _ Hv)).
Defined.

(** C9, as the code has it: the parser receives the platform flag and
    does not use it; the same lines give the same addresses whatever the
    flag, the list of first occurrences of the addresses of the lines,
    and so on whatever platform they were printed. *)
Theorem parse_ignores_platform (output : list pstring) (flag flag' : bool) :
  parseTraceroute output flag = parseTraceroute output flag' /\
  parseTraceroute output flag = first_occurrences (candidates output) /\
  forall w w' target target',
    raw_output w target = output -> raw_output w' target' = output ->
    hop_addresses w target = hop_addresses w' target'.
Proof.
  split; [reflexivity|]. split; [apply parse_first_occurrences|].
  intros w w' target target' H H'. unfold hop_addresses.
  rewrite H, H'. reflexivity.
Qed.

Lemma parse_ignores_platform_witness :
  on_windows (tracert_world "WINNT") = true /\
  on_windows (tracert_world "Linux") = false /\
  hop_addresses (tracert_world "WINNT") (str "example.com")
    = hop_addresses (tracert_world "Linux") (str "example.com").
Proof.
  split; [reflexivity|]. split; [reflexivity|].
  apply (proj2 (proj2 (parse_ignores_platform tracert_sample true false)));
    reflexivity.
Defined.

(** C9 as stated fails: no line sequence is parsed differently with the
    Windows flag set and unset, the output of [tracert] included. *)
Lemma platform_flag_changes_nothing :
  (~ exists output,
       parseTraceroute output true <> parseTraceroute output false) /\
  parseTraceroute tracert_sample true = parseTraceroute tracert_sample false /\
  parseTraceroute tracert_sample true
    = [str "93.184.216.34"; str "192.0.2.1"; str "198.51.100.7"].
Proof.
  split; [|split; reflexivity].
  intros [output H]. now apply H.
Qed.

Lemma no_answer_no_fault (w : World) (ip : pstring) :
  file_get_contents w (geo_url ip) = None -> ~ lookup_faults w ip.
Proof.
  intros H (s & msg & Hd & _). unfold decoded in Hd. rewrite H in Hd. discriminate.
Qed.




(** C6: in a success response the hop at position i (from 0) has the
    number i + 1 and is the record of the i-th address of the parser's
    list, so the numbers are 1, 2, ..., n without gaps whatever the hop
    indices traceroute printed, and hopCount is n, the length of hops and
    of the address list. *)
Theorem hop_numbers_contiguous (w : World) (param : option pstring) :
  arr_get (skey "success") (snd (main w param)) = Some (PBool true) ->
  exists target hops,
    validate param = Valid target /\
    snd (main w param) = success_response w target hops /\
    arr_get (skey "hops") (snd (main w param)) = Some (plist (map PArr hops)) /\
    arr_get (skey "hopCount") (snd (main w param))
      = Some (PInt (Z.of_nat (length hops))) /\
    length hops = length (hop_addresses w target) /\
    forall i h,
      nth_error hops i = Some h ->
      arr_get (skey "hop") h = Some (PInt (Z.of_nat i + 1)) /\
      exists ip r,
        nth_error (hop_addresses w target) i = Some ip /\
        result (getGeolocation w ip) = inl r /\
        h = arr_set (skey "hop") (PInt (Z.of_nat i + 1)) r.
Proof.
  intros Hs. unfold main in *.
  destruct (validate param) as [| |target] eqn:Hv; try discriminate.
  exists target.
  destruct (hop_addresses w target) as [|ip0 ips0] eqn:Hips.
  - destruct (raw_output w target) as [|l out] eqn:Hraw.
    + rewrite try_pipeline_no_output in Hs by exact Hraw. discriminate.
    + rewrite try_pipeline_no_hops in Hs; [discriminate | congruence | exact Hips].
  - rewrite try_pipeline_enriched in * by congruence. rewrite Hips in *.
    cbn [snd] in *.
    destruct (result (getGeolocations w (ip0 :: ips0))) as [hops|[msg|msg]] eqn:Hr;
      try discriminate.
    exists hops. unfold getGeolocations in Hr. apply geo_loop_result in Hr.
    destruct Hr as (recs & Hhops & HF). simpl app in Hhops.
    repeat split; try reflexivity.
    + subst hops. rewrite numbered_length. symmetry. exact (Forall2_length HF).
    + subst hops. apply numbered_nth in H. destruct H as (r & _ & ->).
      apply arr_get_set.
    + subst hops. apply numbered_nth in H. destruct H as (r & Hr & ->).
      destruct (Forall2_nth_r _ _ _ HF _ _ Hr) as (ip & Hip & Hres).
      exists ip, r. auto.
Qed.

Lemma hop_numbers_contiguous_witness :
  exists hops,
    arr_get (skey "hops") (snd (main mixed_world example_com))
      = Some (plist (map PArr hops)) /\
    map (arr_get (skey "hop")) hops
      = [Some (PInt 1); Some (PInt 2); Some (PInt 3)] /\
    arr_get (skey "hopCount") (snd (main mixed_world example_com)) = Some (PInt 3).
Proof.
  destruct (hop_numbers_contiguous mixed_world example_com eq_refl)
    as (target & hops & _ & Hresp & _).
  eexists. repeat split; reflexivity.
Defined.




(** C2: the list the parser returns has no address twice, has exactly the
    addresses the lines yield, and lists them in the order of their first
    appearance: it is the list of first occurrences, and an address that
    comes earlier in it first appears earlier in the output. Parsing the
    same lines again gives the same list. *)
Theorem parse_dedup_first_appearance (output : list pstring) (isWindows : bool) :
  let ips := parseTraceroute output isWindows in
  NoDup ips /\
  (forall a, In a ips <-> In a (candidates output)) /\
  ips = first_occurrences (candidates output) /\
  (forall i j a b,
     nth_error ips i = Some a -> nth_error ips j = Some b -> i < j ->
     exists p q,
       first_index a (candidates output) = Some p /\
       first_index b (candidates output) = Some q /\ p < q) /\
  (forall output', output' = output ->
     parseTraceroute output' isWindows = ips).
Proof.
  cbv zeta. rewrite parse_first_occurrences.
  split; [apply first_occurrences_nodup|].
  split; [intros a; apply first_occurrences_in|].
  split; [reflexivity|].
  split; [apply first_occurrences_order|].
  intros output' ->. apply parse_first_occurrences.
Qed.

Lemma parse_dedup_first_appearance_witness :
  parseTraceroute
    (map str [ " 1  a (192.0.2.1)  1 ms"%string; " 2  * * *"%string;
               " 3  b (198.51.100.7)  2 ms"%string;
               " 4  a (192.0.2.1)  3 ms"%string;
               " 5  2001:db8::1  4 ms"%string ]) false
  = [ str "192.0.2.1"; str "198.51.100.7"; str "2001:db8::1" ] /\
  exists p q,
    first_index (str "192.0.2.1")
      (candidates (map str [ " 1  a (192.0.2.1)  1 ms"%string; " 2  * * *"%string;
                             " 3  b (198.51.100.7)  2 ms"%string;
                             " 4  a (192.0.2.1)  3 ms"%string;
                             " 5  2001:db8::1  4 ms"%string ])) = Some p /\
    first_index (str "2001:db8::1")
      (candidates (map str [ " 1  a (192.0.2.1)  1 ms"%string; " 2  * * *"%string;
                             " 3  b (198.51.100.7)  2 ms"%string;
                             " 4  a (192.0.2.1)  3 ms"%string;
                             " 5  2001:db8::1  4 ms"%string ])) = Some q /\
    p < q.
Proof.
  split; [reflexivity|].
  apply (proj1 (proj2 (proj2 (proj2
           (parse_dedup_first_appearance
              (map str [ " 1  a (192.0.2.1)  1 ms"%string; " 2  * * *"%string;
                         " 3  b (198.51.100.7)  2 ms"%string;
                         " 4  a (192.0.2.1)  3 ms"%string;
                         " 5  2001:db8::1  4 ms"%string ]) false)))) 0 2);
    [reflexivity | reflexivity | lia].
Defined.

(** C3, as the code has it: the input is trimmed first, and (the form "0"
    aside) it is accepted exactly when its trimmed form is non-empty and
    has only letters, digits, '.' and '-'; the accepted target is the
    trimmed form. So the empty string is rejected, as is every string
    with ';', '|', a backquote or '/' in it, or with white space left in
    its trimmed form; 'example.com', '192.0.2.1' and 'a-b.c-d.net' are
    accepted. A rejected input gets one of the two validation errors and
    nothing is run. *)
Theorem validator_allow_list :
  (forall raw, trim raw <> str "0" ->
     (accepts raw = true <->
      trim raw <> [] /\ forallb target_char (trim raw) = true)) /\
  (forall raw target, validate (Some raw) = Valid target -> target = trim raw) /\
  accepts [] = false /\
  (forall raw c, In c raw ->
     In c (str ";|`/") -> accepts raw = false) /\
  (forall raw c, In c (trim raw) -> is_space c = true -> accepts raw = false) /\
  accepts (str "example.com") = true /\
  accepts (str "192.0.2.1") = true /\
  accepts (str "a-b.c-d.net") = true /\
  (forall w raw, accepts raw = false ->
     fst (main w (Some raw)) = [] /\
     (snd (main w (Some raw)) = missing_response \/
      snd (main w (Some raw)) = invalid_response)).
Proof.
  assert (Hbad : forall raw c, In c (trim raw) -> target_char c = false ->
                               accepts raw = false).
  { intros raw c Hin Hc.
    destruct (accepts raw) eqn:Ha; [|reflexivity].
    apply accepts_spec in Ha. destruct Ha as [_ Hm].
    apply target_re_trimmed in Hm. destruct Hm as [_ Hall].
    rewrite forallb_forall in Hall. apply Hall in Hin. congruence. }
  split; [|split; [|split; [reflexivity|split; [|split; [|split;
    [reflexivity|split; [reflexivity|split; [reflexivity|]]]]]]]].
  - intros raw H0. split.
    + intros Ha. apply accepts_spec in Ha. destruct Ha as [He Hm].
      now apply target_re_trimmed in Hm.
    + intros [Hne Hall]. apply accepts_spec. split.
      * destruct (empty_string (trim raw)) eqn:He; [|reflexivity].
        apply empty_string_spec in He. destruct He; contradiction.
      * apply target_re_trimmed. auto.
  - intros raw target Hv. apply validate_target in Hv.
    destruct Hv as (raw' & Hraw & -> & _). now inversion Hraw.
  - intros raw c Hin Hc. apply (Hbad raw c).
    + apply trim_keeps; [exact Hin|].
      simpl in Hc. destruct Hc as [<- | [<- | [<- | [<- | []]]]]; reflexivity.
    + simpl in Hc. destruct Hc as [<- | [<- | [<- | [<- | []]]]]; reflexivity.
  - intros raw c Hin Hc. apply (Hbad raw c Hin).
    unfold is_space, target_char, is_lower, is_upper, is_digit, is_char, between in *.
    destruct (Ascii.eqb_spec "." c) as [<- | _]; [discriminate|].
    destruct (Ascii.eqb_spec "-" c) as [<- | _]; [discriminate|].
    apply orb_prop in Hc. rewrite Nat.eqb_eq, andb_true_iff, !Nat.leb_le in Hc.
    rewrite !orb_false_r. rewrite !orb_false_iff, !andb_false_iff, !Nat.leb_gt.
    lia.
  - intros w raw H.
    destruct (rejected_no_events w raw H) as [-> | ->]; auto.
Qed.

Lemma validator_allow_list_witness :
  accepts (str "  Example-1.COM ") = true /\
  accepts (str "a b") = false /\
  accepts (str "$(id);x") = false /\
  main offline_world (Some (str "a|b")) = ([], invalid_response).
Proof.
  pose proof validator_allow_list as (Hiff & _ & _ & Hbad & Hsp & _ & _ & _ & Hrej).
  split; [|split; [|split]].
  - apply Hiff; [discriminate | split; [discriminate | reflexivity]].
  - apply (Hsp (str "a b") " "%char); [simpl; auto | reflexivity].
  - apply (Hbad (str "$(id);x") ";"%char); simpl; auto 10.
  - reflexivity.
Defined.

(** C3 as stated fails: a string with leading white space in it is
    accepted, as its trimmed form. *)
Lemma leading_space_is_accepted :
  existsb is_space (str " example.com") = true /\
  accepts (str " example.com") = true /\
  validate (Some (str " example.com")) = Valid (str "example.com").
Proof. repeat split; reflexivity. Qed.

(** C4: the line '3  * * *', and every line made of a hop index and
    three asterisks, yields no address; a line with [192.0.2.5] in
    brackets yields 192.0.2.5 without the brackets; a line with
    2001:4860:0:1::67e yields that literal and nothing else, even when an
    IPv4 address follows on the line: the IPv6 pattern is tried first and
    a line yields one address at most. *)
Theorem parser_line_cases :
  (line_address (str "3  * * *") = None /\
   forall s0 d s1 s2 s3 rest,
     forallb is_space s0 = true ->
     d <> [] -> forallb is_digit d = true ->
     s1 <> [] -> forallb is_space s1 = true ->
     s2 <> [] -> forallb is_space s2 = true ->
     s3 <> [] -> forallb is_space s3 = true ->
     line_address
       (s0 ++ d ++ s1 ++ ["*"%char] ++ s2 ++ ["*"%char] ++ s3 ++ ["*"%char] ++ rest)
     = None) /\
  (line_address (str "[192.0.2.5]") = Some (str "192.0.2.5") /\
   line_address (str "  3    12 ms    11 ms    12 ms  host.example.net [192.0.2.5]")
     = Some (str "192.0.2.5") /\
   forall pre post,
     ~ In ":"%char pre -> ~ In ":"%char post ->
     dot_then_digit pre = false ->
     unresponsive (pre ++ str "[192.0.2.5]" ++ post) = false ->
     line_address (pre ++ str "[192.0.2.5]" ++ post) = Some (str "192.0.2.5")) /\
  (line_address (str "2001:4860:0:1::67e") = Some (str "2001:4860:0:1::67e") /\
   line_address (str " 4  2001:4860:0:1::67e (192.0.2.5)  12.3 ms")
     = Some (str "2001:4860:0:1::67e") /\
   forall pre post flag,
     ~ In ":"%char pre ->
     match post with [] => True | c :: _ => hex_or_colon c = false end ->
     unresponsive (pre ++ str "2001:4860:0:1::67e" ++ post) = false ->
     line_address (pre ++ str "2001:4860:0:1::67e" ++ post)
       = Some (str "2001:4860:0:1::67e") /\
     parseTraceroute [pre ++ str "2001:4860:0:1::67e" ++ post] flag
       = [str "2001:4860:0:1::67e"]) /\
  (forall line ip,
     empty_string (trim line) = false -> unresponsive line = false ->
     preg_match_group1 ipv6_re line = Some ip ->
     line_address line = Some ip) /\
  (forall line flag, length (parseTraceroute [line] flag) <= 1).
Proof.
  split; [split; [reflexivity|]|].
  { intros. apply unresponsive_no_address. unfold unresponsive.
    rewrite asterisks_match by assumption. apply orb_true_r. }
  split; [split; [reflexivity|split; [reflexivity|]]|].
  { intros pre post. apply bracketed4_address. }
  split; [split; [reflexivity|split; [reflexivity|]]|].
  { intros pre post flag Hpre Hpost Hun.
    pose proof (literal6_address pre post Hpre Hpost Hun) as H.
    split; [exact H|]. rewrite parse_one_line. unfold literal6 in H.
    now rewrite H. }
  split.
  - intros line ip He Hun H6. unfold line_address. now rewrite He, Hun, H6.
  - intros line flag. rewrite parse_one_line.
    destruct (line_address line); simpl; lia.
Qed.

Ltac not_in :=
  let H := fresh in
  intros H; simpl in H;
  repeat (destruct H as [H | H]; [discriminate H|]); exact H.

Lemma parser_line_cases_witness :
  line_address (str " 12   *  *  *") = None /\
  line_address (str "  7    30 ms    29 ms    31 ms  core1.example.org [192.0.2.5]")
    = Some (str "192.0.2.5") /\
  parseTraceroute [str " 9  2001:4860:0:1::67e  21.4 ms  1.2.3.4"] false
    = [str "2001:4860:0:1::67e"].
Proof.
  destruct parser_line_cases as ((_ & Hstar) & (_ & _ & H4) & (_ & _ & H6) & _).
  split; [|split].
  - refine (Hstar (str " ") (str "12") (str "   ") (str "  ") (str "  ") []
              _ _ _ _ _ _ _ _ _); first [reflexivity | discriminate].
  - refine (H4 (str "  7    30 ms    29 ms    31 ms  core1.example.org ") []
              _ _ _ _); first [reflexivity | not_in].
  - refine (proj2 (H6 (str " 9  ") (str "  21.4 ms  1.2.3.4") false _ _ _));
      first [reflexivity | exact I | not_in].
Defined.

(** * Further properties of the code *)

(** ** The enricher, whatever the lookups do *)

Lemma requests_firstn_cons (k : nat) (ip : pstring) (rest : list pstring) :
  requests (firstn (S k) (ip :: rest)) = EvHttpGet (geo_url ip) :: requests (firstn k rest).
Proof. reflexivity. Qed.

Lemma geo_loop_events (w : World) (ips : list pstring) :
  forall n index hops,
    n = (index + Z.of_nat (length ips))%Z ->
    exists k,
      k <= length ips /\ (ips <> [] -> 1 <= k) /\
      events (geo_loop w n index ips hops)
        = between_each (EvSleep 700000) (requests (firstn k ips)) /\
      (forall hs, result (geo_loop w n index ips hops) = inl hs -> k = length ips).
Proof.
  induction ips as [|ip rest IH]; intros n index hops Hn.
  - exists 0. simpl. repeat split; auto. congruence.
  - cbn [geo_loop].
    pose proof (getGeolocation_events w ip) as Hev.
    destruct (getGeolocation w ip) as [tr [r|t]] eqn:Hg;
      unfold events in Hev; simpl in Hev; subst tr.
    + rewrite bind_inl.
      destruct (IH n (index + 1)%Z
                  (hops ++ [arr_set (skey "hop") (PInt (index + 1)) r]))
        as (k & Hk & Hk1 & Hevs & Hres).
      { simpl length in Hn. lia. }
      exists (S k). simpl length in *.
      destruct rest as [|ip2 rest'].
      * assert (Hlt : (index <? n - 1)%Z = false) by (apply Z.ltb_ge; simpl in Hn; lia).
        rewrite Hlt. unfold ret. rewrite !bind_inl.
        unfold events, result in *. cbn [fst snd app] in *.
        assert (k = 0) by (simpl in Hk; lia). subst k.
        rewrite Hevs. simpl. repeat split; auto; lia.
      * assert (Hlt : (index <? n - 1)%Z = true).
        { apply Z.ltb_lt. simpl length in Hn. lia. }
        rewrite Hlt. unfold emit. rewrite !bind_inl.
        unfold events, result in *. cbn [fst snd app] in *.
        rewrite Hevs.
        assert (Hk' : 1 <= k) by (apply Hk1; discriminate).
        destruct k as [|k]; [lia|].
        repeat split; try lia.
        intros hs Hhs. apply Hres in Hhs. simpl in Hhs. simpl. lia.
    + rewrite bind_inr. exists 1. simpl length.
      unfold events, result. cbn [fst snd].
      split; [lia|]. split; [lia|].
      split; [destruct rest; reflexivity|].
      intros hs H. discriminate H.
Qed.

Lemma delays_between_firstn (ips : list pstring) (k : nat) :
  k <= length ips ->
  delays (between_each (EvSleep 700000) (requests (firstn k ips))) = k - 1.
Proof.
  intros Hk. rewrite delays_between_each, length_firstn. lia.
Qed.

Lemma http_urls_between (ips : list pstring) :
  http_urls (between_each (EvSleep 700000) (requests ips)) = map geo_url ips.
Proof.
  induction ips as [|ip [|ip2 rest] IH]; try reflexivity.
  change (http_urls (EvHttpGet (geo_url ip) :: EvSleep 700000 ::
                     between_each (EvSleep 700000) (requests (ip2 :: rest)))
          = geo_url ip :: map geo_url (ip2 :: rest)).
  cbn [http_urls]. f_equal. exact IH.
Qed.



(** ** What a request runs and requests *)

Lemma exec_commands_between (ips : list pstring) :
  exec_commands (between_each (EvSleep 700000) (requests ips)) = [].
Proof.
  induction ips as [|ip [|ip2 rest] IH]; try reflexivity.
  change (exec_commands (EvHttpGet (geo_url ip) :: EvSleep 700000 ::
                         between_each (EvSleep 700000) (requests (ip2 :: rest))) = []).
  cbn [exec_commands]. exact IH.
Qed.

(** The trace of a request that passed validation. *)
Lemma try_pipeline_trace (w : World) (target : pstring) :
  exists k,
    k <= length (hop_addresses w target) /\
    fst (try_pipeline w target)
      = EvExec (command_for w target)
          :: between_each (EvSleep 700000)
               (requests (firstn k (hop_addresses w target))).
Proof.
  destruct (hop_addresses w target) as [|ip ips] eqn:Hips.
  - exists 0. split; [simpl; lia|].
    destruct (raw_output w target) as [|l out] eqn:Hraw.
    + now rewrite try_pipeline_no_output.
    + rewrite try_pipeline_no_hops; [reflexivity | congruence | exact Hips].
  - rewrite try_pipeline_enriched by congruence. rewrite Hips. cbn [fst].
    destruct (geo_loop_events w (ip :: ips) (Z.of_nat (length (ip :: ips))) 0%Z [])
      as (k & Hk & _ & Hev & _); [lia|].
    exists k. split; [exact Hk|].
    unfold getGeolocations. now rewrite Hev.
Qed.

Lemma valid_target_chars (param : option pstring) (target : pstring) :
  validate param = Valid target ->
  target <> [] /\ forallb target_char target = true.
Proof.
  intros Hv. apply validate_target in Hv.
  destruct Hv as (raw & _ & -> & _ & Hm). now apply target_re_trimmed in Hm.
Qed.

(** X2: a request runs one command at most. Nothing is run for a
    parameter that is missing or rejected; for an accepted one the
    command is the first thing the request does, it is run once, and it
    is the fixed [tracert] or [traceroute] prefix followed by
    [escapeshellarg] of the target, a non-empty string of letters,
    digits, dots and hyphens. *)
Theorem one_command_per_request (w : World) (param : option pstring) :
  match validate param with
  | Valid target =>
      exec_commands (fst (main w param)) = [command_for w target] /\
      (exists tr, fst (main w param) = EvExec (command_for w target) :: tr) /\
      (command_for w target
         = str "tracert -4 -h 15 -w 1000 " ++ escapeshellarg w target \/
       command_for w target
         = str "traceroute -m 15 -w 1 " ++ escapeshellarg w target) /\
      target <> [] /\ forallb target_char target = true
  | _ => fst (main w param) = []
  end.
Proof.
  destruct (validate param) as [| |target] eqn:Hv;
    try (unfold main; rewrite Hv; reflexivity).
  rewrite (main_valid w _ _ Hv).
  destruct (try_pipeline_trace w target) as (k & _ & Htr). rewrite Htr.
  split; [cbn [exec_commands]; now rewrite exec_commands_between|].
  split; [eauto|].
  split; [unfold command_for; destruct (on_windows w); auto|].
  exact (valid_target_chars _ _ Hv).
Qed.

Lemma geo_url_inj (a b : pstring) : geo_url a = geo_url b -> a = b.
Proof.
  unfold geo_url. intros H.
  apply app_inv_head in H. now apply app_inv_tail in H.
Qed.

Lemma NoDup_firstn_pstring (k : nat) (l : list pstring) :
  NoDup l -> NoDup (firstn k l).
Proof.
  intros H. rewrite <- (firstn_skipn k l) in H.
  now apply NoDup_app_remove_r in H.
Qed.

Lemma NoDup_map_geo_url (l : list pstring) : NoDup l -> NoDup (map geo_url l).
Proof.
  induction 1 as [|x l Hx _ IH]; simpl; constructor; [|exact IH].
  rewrite in_map_iff. intros (y & Hy & Hin).
  apply geo_url_inj in Hy. now subst.
Qed.

Lemma candidates_length (output : list pstring) :
  length (candidates output) <= length output.
Proof.
  induction output as [|l out IH]; simpl; [lia|].
  destruct (line_address l); simpl; lia.
Qed.

Lemma first_occurrences_length (l : list pstring) :
  length (first_occurrences l) <= length l.
Proof.
  induction l as [|a l IH]; simpl; [lia|].
  unfold without. pose proof (filter_length_le (fun b => negb (pstring_eqb a b))
                                (first_occurrences l)). lia.
Qed.

(** X3: within one request no address is looked up twice, every lookup
    is for an address the parser returned, in the parser's order, and
    there are at most as many lookups as traceroute printed lines; a
    parameter that is missing or rejected causes no lookup. *)
Theorem lookups_once_per_address (w : World) (param : option pstring) :
  NoDup (http_urls (fst (main w param))) /\
  match validate param with
  | Valid target =>
      (exists k, http_urls (fst (main w param))
                 = map geo_url (firstn k (hop_addresses w target))) /\
      length (http_urls (fst (main w param))) <= length (raw_output w target)
  | _ => http_urls (fst (main w param)) = []
  end.
Proof.
  destruct (validate param) as [| |target] eqn:Hv;
    try (unfold main; rewrite Hv; split; [constructor | reflexivity]).
  rewrite (main_valid w _ _ Hv).
  destruct (try_pipeline_trace w target) as (k & Hk & Htr). rewrite Htr.
  cbn [http_urls]. rewrite http_urls_between.
  assert (Hnd : NoDup (hop_addresses w target)).
  { unfold hop_addresses. rewrite parse_first_occurrences.
    apply first_occurrences_nodup. }
  split; [|split].
  - now apply NoDup_map_geo_url, NoDup_firstn_pstring.
  - now exists k.
  - rewrite length_map, length_firstn.
    unfold hop_addresses in *. rewrite parse_first_occurrences in *.
    pose proof (first_occurrences_length (candidates (raw_output w target))).
    pose proof (candidates_length (raw_output w target)). lia.
Qed.

(** ** The response *)

Lemma getGeolocation_result_cases (w : World) (ip : pstring) (r : parray) :
  result (getGeolocation w ip) = inl r ->
  r = minimal_record ip \/
  exists a, decoded w ip = Some (PArr a) /\
            arr_read (skey "status") a = sval "success" /\ r = geo_record a.
Proof.
  unfold getGeolocation, decoded, emit. rewrite bind_inl.
  unfold result at 1. cbn [snd].
  destruct (file_get_contents w (geo_url ip)) as [body|];
    [|intros H; inversion H; auto].
  cbn [option_map]. unfold status_is_success.
  destruct (json_decode w body) as [| b | z | f | s | a];
    try (destruct (truthy _); intros H; inversion H; auto; fail).
  - destruct (truthy (PStr s)); [|intros H; inversion H; auto].
    destruct (string_offset_error w); intros H; inversion H; auto.
  - destruct (truthy (PArr a)); [|intros H; inversion H; auto].
    destruct (arr_read (skey "status") a) as [| | | |s|] eqn:Hst;
      try (intros H; inversion H; auto; fail).
    destruct (pstring_eqb s (str "success")) eqn:Hs;
      intros H; inversion H; auto.
    apply pstring_eqb_eq in Hs. subst s. right. exists a. auto.
Qed.

(** The response of a request, by cases. *)
Lemma main_response_cases (w : World) (param : option pstring) :
  (validate param = Missing /\ snd (main w param) = missing_response) \/
  (validate param = Invalid /\ snd (main w param) = invalid_response) \/
  exists target,
    validate param = Valid target /\
    ((exists msg, msg <> [] /\ snd (main w param) = error_response msg target) \/
     (exists recs,
        recs <> [] /\
        Forall2 (fun ip r => result (getGeolocation w ip) = inl r)
          (hop_addresses w target) recs /\
        snd (main w param) = success_response w target (numbered 0 recs))).
Proof.
  unfold main. destruct (validate param) as [| |target] eqn:Hv; auto.
  right. right. exists target. split; [reflexivity|].
  destruct (hop_addresses w target) as [|ip ips] eqn:Hips.
  - left. destruct (raw_output w target) as [|l out] eqn:Hraw.
    + rewrite try_pipeline_no_output by exact Hraw.
      exists no_output_message. split; [discriminate | reflexivity].
    + rewrite try_pipeline_no_hops; [|congruence|exact Hips].
      exists no_hops_message. split; [discriminate | reflexivity].
  - rewrite try_pipeline_enriched by congruence. rewrite Hips. cbn [snd].
    destruct (result (getGeolocations w (ip :: ips))) as [hops|[msg|msg]] eqn:Hr.
    + right. unfold getGeolocations in Hr. apply geo_loop_result in Hr.
      destruct Hr as (recs & -> & HF). exists recs.
      split; [|split; [exact HF | reflexivity]].
      inversion HF; discriminate.
    + exfalso. exact (geo_loop_no_exception _ _ _ _ _ _ Hr).
    + left. eexists. split; [|reflexivity]. discriminate.
Qed.

Lemma numbered_nil (recs : list parray) (index : Z) :
  numbered index recs = [] -> recs = [].
Proof. destruct recs; [reflexivity | discriminate]. Qed.

(** The response to a parameter that is a string or is not set. *)
Lemma main_envelope (w : World) (param : option pstring) :
  (success_envelope (snd (main w param)) \/
   error_envelope (snd (main w param))) /\
  arr_get (skey "target") (snd (main w param))
    = match validate param with
      | Valid target => Some (PStr target)
      | _ => None
      end.
Proof.
  unfold success_envelope, error_envelope.
  destruct (main_response_cases w param)
    as [[Hv ->] | [[Hv ->] | (target & Hv & [(msg & Hm & ->) | (recs & Hr & _ & ->)])]];
    rewrite Hv.
  - split; [right|reflexivity]. repeat split; try reflexivity.
    eexists. split; [|reflexivity]. discriminate.
  - split; [right|reflexivity]. repeat split; try reflexivity.
    eexists. split; [|reflexivity]. discriminate.
  - split; [right|reflexivity]. repeat split; try reflexivity.
    exists msg. split; [exact Hm | reflexivity].
  - split; [left|reflexivity]. repeat split; try reflexivity.
    exists (numbered 0 recs). split; [|split; reflexivity].
    intros H. apply numbered_nil in H. contradiction.
Qed.


(** X5: every hop of a success response is built from the address at its
    position in the parser's list: it is either the seven-member record
    of a failed lookup, or the eleven-member record of the answer that
    had status 'success', in which ip is the answer's query member (null
    when the answer has none), region its regionName, and nothing else of
    the answer is passed on. *)
Theorem hop_members (w : World) (param : option pstring) :
  arr_get (skey "success") (snd (main w param)) = Some (PBool true) ->
  exists target hops,
    validate param = Valid target /\
    snd (main w param) = success_response w target hops /\
    forall i h,
      nth_error hops i = Some h ->
      exists ip,
        nth_error (hop_addresses w target) i = Some ip /\
        ((h = degraded_hop ip (Z.of_nat i + 1) /\ map fst h = degraded_keys) \/
         (exists a,
            decoded w ip = Some (PArr a) /\
            arr_read (skey "status") a = sval "success" /\
            h = enriched_hop a (Z.of_nat i + 1) /\
            map fst h = enriched_keys /\
            arr_get (skey "ip") h = Some (arr_read (skey "query") a) /\
            arr_get (skey "region") h = Some (arr_read (skey "regionName") a))).
Proof.
  intros Hs.
  destruct (main_response_cases w param)
    as [[Hv Hr] | [[Hv Hr] | (target & Hv & [(msg & Hm & Hr) | (recs & _ & HF & Hr)])]];
    rewrite Hr in Hs; try discriminate.
  exists target, (numbered 0 recs). split; [exact Hv|]. split; [exact Hr|].
  intros i h Hh. apply numbered_nth in Hh. destruct Hh as (r & Hri & ->).
  destruct (Forall2_nth_r _ _ _ HF _ _ Hri) as (ip & Hip & Hres).
  exists ip. split; [exact Hip|].
  apply getGeolocation_result_cases in Hres.
  destruct Hres as [-> | (a & Hd & Hst & ->)].
  - left. split; reflexivity.
  - right. exists a. repeat split; auto.
Qed.

Lemma hop_members_witness :
  exists hops,
    snd (main mixed_world example_com)
      = success_response mixed_world (str "example.com") hops /\
    map (map fst) hops = [enriched_keys; degraded_keys; degraded_keys].
Proof.
  destruct (hop_members mixed_world example_com eq_refl)
    as (target & hops & _ & Hresp & _).
  eexists. split; reflexivity.
Defined.

(** ** The validator *)

Lemma target_char_not_trimmed (c : ascii) :
  target_char c = true -> trim_char c = false.
Proof.
  destruct c as [[] [] [] [] [] [] [] []]; vm_compute;
    intros H; first [reflexivity | discriminate H].
Qed.

Lemma ltrim_fixed (s : pstring) :
  forallb target_char s = true -> ltrim s = s.
Proof.
  destruct s as [|c t]; [reflexivity|]. simpl. intros H.
  apply andb_prop in H. destruct H as [Hc _].
  now rewrite (target_char_not_trimmed _ Hc).
Qed.

Lemma trim_fixed (s : pstring) :
  forallb target_char s = true -> trim s = s.
Proof.
  intros H. unfold trim, rtrim. rewrite (ltrim_fixed _ H).
  rewrite ltrim_fixed; [apply rev_involutive|].
  rewrite forallb_forall in *. intros x Hx. apply H. now apply in_rev.
Qed.

(** X6: validation is idempotent: the target it accepts is accepted
    again, unchanged, when it is given back as the parameter. *)
Theorem validate_idempotent (param : option pstring) (target : pstring) :
  validate param = Valid target -> validate (Some target) = Valid target.
Proof.
  intros Hv. pose proof (valid_target_chars _ _ Hv) as [_ Hall].
  apply validate_target in Hv. destruct Hv as (raw & _ & _ & He & Hm).
  unfold validate. rewrite (trim_fixed _ Hall), He, Hm. reflexivity.
Qed.

Lemma validate_idempotent_witness :
  validate (Some (str "example.com")) = Valid (str "example.com").
Proof.
  apply (validate_idempotent (Some (str "  example.com ")) (str "example.com")).
  reflexivity.
Defined.

(** ** The parser: time-out lines, and its own output *)

Lemma starts_with_app (n b : pstring) : starts_with n (n ++ b) = true.
Proof.
  induction n as [|c n IH]; [reflexivity|]. simpl.
  now rewrite Ascii.eqb_refl, IH.
Qed.

Lemma contains_here (n h : pstring) :
  starts_with n h = true -> contains n h = true.
Proof. intros H. destruct h; simpl; now rewrite H. Qed.

Lemma contains_app (n a b : pstring) : contains n (a ++ n ++ b) = true.
Proof.
  induction a as [|x a IH].
  - simpl. apply contains_here, starts_with_app.
  - simpl. rewrite IH. apply orb_true_r.
Qed.

(** X7: a line with the words 'Request timed out' in it, in any letter
    case, yields no address and leaves the list as it is, whatever else
    is on the line, an address included. *)
Theorem timed_out_line_skipped (pre marker post : pstring) :
  strtolower marker = str "request timed out" ->
  line_address (pre ++ marker ++ post) = None /\
  forall ips, parse_line ips (pre ++ marker ++ post) = ips.
Proof.
  intros Hm.
  assert (H : line_address (pre ++ marker ++ post) = None).
  { apply unresponsive_no_address. unfold unresponsive, stripos_found.
    change (strtolower (str "Request timed out")) with (str "request timed out").
    unfold strtolower in *. rewrite !map_app, Hm, contains_app. reflexivity. }
  split; [exact H|]. intros ips. unfold parse_line. now rewrite H.
Qed.

Lemma timed_out_line_skipped_witness :
  line_address (str "  2     *       12 ms  10.0.0.1  REQUEST TIMED OUT.") = None.
Proof.
  refine (proj1 (timed_out_line_skipped (str "  2     *       12 ms  10.0.0.1  ")
                   (str "REQUEST TIMED OUT") (str ".") _)).
  reflexivity.
Defined.

Lemma addr_char_not_r (c : ascii) :
  addr_char c = true -> Ascii.eqb (to_lower c) "r" = false.
Proof.
  destruct c as [[] [] [] [] [] [] [] []]; vm_compute;
    intros H; first [reflexivity | discriminate H].
Qed.

Lemma addr_char_not_star (c : ascii) :
  addr_char c = true -> is_char "*" c = false.
Proof.
  destruct c as [[] [] [] [] [] [] [] []]; vm_compute;
    intros H; first [reflexivity | discriminate H].
Qed.

Lemma hex_addr_char (c : ascii) : is_hex c = true -> addr_char c = true.
Proof. intros H. unfold addr_char, hex_or_colon. now rewrite H. Qed.

Lemma hex_or_colon_addr_char (c : ascii) :
  hex_or_colon c = true -> addr_char c = true.
Proof. intros H. unfold addr_char. now rewrite H. Qed.

Lemma digit_addr_char (c : ascii) : is_digit c = true -> addr_char c = true.
Proof. intros H. apply hex_addr_char. unfold is_hex. now rewrite H. Qed.

Lemma forallb_impl (P Q : ascii -> bool) (s : pstring) :
  (forall c, P c = true -> Q c = true) ->
  forallb P s = true -> forallb Q s = true.
Proof.
  intros HPQ. rewrite !forallb_forall. auto.
Qed.

Lemma contains_in_head (c : ascii) (n h : pstring) :
  contains (c :: n) h = true -> In c h.
Proof.
  induction h as [|x h IH]; simpl; [discriminate|].
  intros H. apply orb_prop in H. destruct H as [H | H].
  - apply andb_prop in H. destruct H as [H _].
    apply Ascii.eqb_eq in H. now left.
  - right. now apply IH.
Qed.

Lemma Forall2_fits_class (ats : list atom) (ps : list pstring) :
  Forall2 fits ats ps ->
  forall a, In a ats -> 1 <= lo a ->
            exists c, In c (concat ps) /\ cls a c = true.
Proof.
  induction 1 as [|a0 p ats ps (Hp & Hl & _) _ IH]; intros a Hin Hlo;
    [destruct Hin|].
  destruct Hin as [-> | Hin].
  - destruct p as [|c p]; [simpl in Hl; lia|].
    simpl in Hp. apply andb_prop in Hp. exists c. simpl. tauto.
  - destruct (IH a Hin Hlo) as (c & Hc & Hcls).
    exists c. simpl. rewrite in_app_iff. auto.
Qed.

Lemma asterisks_needs_star (s : pstring) :
  preg_match asterisks_re s = true -> In "*"%char s.
Proof.
  unfold preg_match. rewrite search_caret by reflexivity.
  destruct (match_here asterisks_re s) as [ps|] eqn:Hm; [intros _|discriminate].
  apply match_atoms_sound in Hm. destruct Hm as [HF (rest & -> & _)].
  destruct (Forall2_fits_class _ _ HF (one (is_char "*"))) as (c & Hc & Hcls).
  - simpl. auto.
  - simpl. lia.
  - cbn [cls one] in Hcls. apply is_char_eq in Hcls. subst c.
    rewrite in_app_iff. auto.
Qed.

(** A string of address characters is not taken for a time-out line. *)
Lemma addr_chars_responsive (s : pstring) :
  forallb addr_char s = true -> unresponsive s = false.
Proof.
  intros Hs. rewrite forallb_forall in Hs.
  unfold unresponsive. apply orb_false_iff. split.
  - destruct (stripos_found s (str "Request timed out")) eqn:H; [|reflexivity].
    unfold stripos_found in H.
    change (strtolower (str "Request timed out"))
      with ("r"%char :: str "equest timed out") in H.
    apply contains_in_head in H. unfold strtolower in H.
    apply in_map_iff in H. destruct H as (x & Hx & Hin).
    apply Hs, addr_char_not_r in Hin.
    rewrite Hx, Ascii.eqb_refl in Hin. discriminate.
  - destruct (preg_match asterisks_re s) eqn:H; [|reflexivity].
    apply asterisks_needs_star, Hs, addr_char_not_star in H. discriminate.
Qed.

(** The two shapes of an address the parser takes from a line. *)
Lemma line_address_shape (line ip : pstring) :
  line_address line = Some ip ->
  (exists p1 p3,
     ip = p1 ++ [":"%char] ++ p3 ++ [] /\
     forallb is_hex p1 = true /\ 1 <= length p1 <= 4 /\
     forallb hex_or_colon p3 = true /\ p3 <> []) \/
  (exists d1 d2 d3 d4,
     ip = [] ++ d1 ++ ["."%char] ++ d2 ++ ["."%char] ++ d3 ++ ["."%char] ++ d4
            ++ [] ++ [] /\
     Forall (fun d => forallb is_digit d = true /\ 1 <= length d <= 3)
       [d1; d2; d3; d4]).
Proof.
  unfold line_address.
  destruct (empty_string (trim line)); [discriminate|].
  destruct (unresponsive line); [discriminate|].
  unfold preg_match_group1.
  destruct (search ipv6_re line) as [ps|] eqn:H6.
  - intros H. inversion H; subst ip. left.
    apply search_sound in H6. destruct H6 as (pre & suf & _ & Hm & _).
    apply ipv6_match_shape in Hm.
    destruct Hm as (p1 & p3 & rest & -> & _ & Hh & Hl & Hc & Hne).
    exists p1, p3. simpl. repeat split; auto; lia.
  - destruct (search ipv4_re line) as [ps|] eqn:H4; [|discriminate].
    intros H. inversion H; subst ip. right.
    apply search_sound in H4. destruct H4 as (pre & suf & _ & Hm & _).
    apply ipv4_match_shape in Hm.
    destruct Hm as (o & d1 & d2 & d3 & d4 & c & rest & -> & _ & _ & _ & HD).
    exists d1, d2, d3, d4. split; [reflexivity | exact HD].
Qed.

Lemma fits_opt_nil (c : ascii -> bool) : fits (opt c) [].
Proof. repeat split; simpl; [lia | intros n H; inversion H; lia]. Qed.

Lemma fits_rep (c : ascii -> bool) (a b : nat) (p : pstring) :
  forallb c p = true -> a <= length p <= b -> fits (rep c a b) p.
Proof.
  intros Hp Hl. repeat split; simpl; auto; [lia|].
  intros n H. inversion H. lia.
Qed.

Lemma digit_not_bracket (c : ascii) : is_digit c = true -> is_char "[" c = false.
Proof.
  intros H. apply is_char_neq. intros ->. discriminate H.
Qed.

Lemma reparse6 (p1 p3 : pstring) :
  forallb is_hex p1 = true -> 1 <= length p1 <= 4 ->
  forallb hex_or_colon p3 = true -> p3 <> [] ->
  line_address (p1 ++ [":"%char] ++ p3 ++ []) = Some (p1 ++ [":"%char] ++ p3 ++ []).
Proof.
  intros Hh Hl Hc Hne.
  assert (Hall : forallb addr_char (p1 ++ [":"%char] ++ p3 ++ []) = true).
  { rewrite !forallb_app. rewrite (forallb_impl _ _ _ hex_addr_char Hh).
    rewrite (forallb_impl _ _ _ hex_or_colon_addr_char Hc). reflexivity. }
  unfold line_address.
  rewrite (not_empty_if_contains _ ":"%char), (addr_chars_responsive _ Hall);
    try discriminate; try reflexivity.
  - unfold preg_match_group1.
    rewrite (search_here _ _ [p1; [":"%char]; p3]); [simpl; now rewrite app_nil_r|].
    unfold match_here, ipv6_re, atoms, fin_of, dollar.
    erewrite match_atoms_cons_max;
      [reflexivity | now apply fits_rep | right; reflexivity | ].
    erewrite match_atoms_cons_max; [reflexivity | apply fits_one | now left | ].
    erewrite match_atoms_cons_max;
      [reflexivity | now apply fits_plus | right; exact I | reflexivity].
  - rewrite !in_app_iff. right. left. simpl. auto.
Qed.

Lemma reparse4 (d1 d2 d3 d4 : pstring) :
  Forall (fun d => forallb is_digit d = true /\ 1 <= length d <= 3)
    [d1; d2; d3; d4] ->
  line_address ([] ++ d1 ++ ["."%char] ++ d2 ++ ["."%char] ++ d3 ++ ["."%char]
                   ++ d4 ++ [] ++ [])
  = Some ([] ++ d1 ++ ["."%char] ++ d2 ++ ["."%char] ++ d3 ++ ["."%char]
             ++ d4 ++ [] ++ []).
Proof.
  intros HD.
  inversion HD as [|? ? [H1 L1] HD1]; subst.
  inversion HD1 as [|? ? [H2 L2] HD2]; subst.
  inversion HD2 as [|? ? [H3 L3] HD3]; subst.
  inversion HD3 as [|? ? [H4 L4] _]; subst.
  assert (Hdig : forallb (fun c => is_digit c || is_char "." c)
                   ([] ++ d1 ++ ["."%char] ++ d2 ++ ["."%char] ++ d3
                       ++ ["."%char] ++ d4 ++ [] ++ []) = true).
  { rewrite !forallb_app.
    assert (Hd : forall d, forallb is_digit d = true ->
                           forallb (fun c => is_digit c || is_char "." c) d = true).
    { intros d. apply forallb_impl. intros c Hc. now rewrite Hc. }
    rewrite (Hd _ H1), (Hd _ H2), (Hd _ H3), (Hd _ H4). reflexivity. }
  assert (Hall : forallb addr_char
                   ([] ++ d1 ++ ["."%char] ++ d2 ++ ["."%char] ++ d3
                       ++ ["."%char] ++ d4 ++ [] ++ []) = true).
  { revert Hdig. apply forallb_impl. intros c Hc.
    apply orb_prop in Hc. destruct Hc as [Hc | Hc].
    - now apply digit_addr_char.
    - unfold addr_char. rewrite Hc. apply orb_true_r. }
  assert (Hnc : ~ In ":"%char ([] ++ d1 ++ ["."%char] ++ d2 ++ ["."%char] ++ d3
                                  ++ ["."%char] ++ d4 ++ [] ++ [])).
  { intros Hin. rewrite forallb_forall in Hdig. apply Hdig in Hin. discriminate. }
  assert (Hne : forall d : pstring, 1 <= length d <= 3 -> d <> []).
  { intros d Hl ->. simpl in Hl. lia. }
  unfold line_address.
  rewrite (not_empty_if_contains _ "."%char), (addr_chars_responsive _ Hall);
    try discriminate; try reflexivity.
  - unfold preg_match_group1 at 1. rewrite (ipv6_needs_colon _ Hnc).
    unfold preg_match_group1.
    rewrite (search_here _ _ [[]; d1; ["."%char]; d2; ["."%char]; d3;
                              ["."%char]; d4; []]);
      [simpl; now rewrite app_nil_r|].
    unfold match_here, ipv4_re, atoms, fin_of, dollar.
    erewrite match_atoms_cons_max; [reflexivity | apply fits_opt_nil | | ].
    { right. apply (head_class is_digit); auto. apply digit_not_bracket. }
    erewrite match_atoms_cons_max;
      [reflexivity | now apply fits_rep | right; reflexivity | ].
    erewrite match_atoms_cons_max; [reflexivity | apply fits_one | now left | ].
    erewrite match_atoms_cons_max;
      [reflexivity | now apply fits_rep | right; reflexivity | ].
    erewrite match_atoms_cons_max; [reflexivity | apply fits_one | now left | ].
    erewrite match_atoms_cons_max;
      [reflexivity | now apply fits_rep | right; reflexivity | ].
    erewrite match_atoms_cons_max; [reflexivity | apply fits_one | now left | ].
    erewrite match_atoms_cons_max;
      [reflexivity | now apply fits_rep | right; exact I | ].
    erewrite match_atoms_cons_max;
      [reflexivity | apply fits_opt_nil | right; exact I | reflexivity].
  - rewrite !in_app_iff. right. right. left. simpl. auto.
Qed.

Lemma candidates_in (output : list pstring) (ip : pstring) :
  In ip (candidates output) -> exists line, line_address line = Some ip.
Proof.
  induction output as [|l out IH]; simpl; [tauto|].
  destruct (line_address l) as [a|] eqn:Ha; [|exact IH].
  intros [<- | Hin]; eauto.
Qed.

Lemma candidates_fixed (ips : list pstring) :
  (forall ip, In ip ips -> line_address ip = Some ip) -> candidates ips = ips.
Proof.
  induction ips as [|ip ips IH]; intros H; [reflexivity|].
  simpl. rewrite (H ip (or_introl eq_refl)). f_equal.
  apply IH. intros x Hx. apply H. now right.
Qed.

Lemma without_absent (a : pstring) (l : list pstring) :
  ~ In a l -> without a l = l.
Proof.
  induction l as [|x l IH]; intros Hin; [reflexivity|].
  unfold without in *. simpl.
  assert (Hax : pstring_eqb a x = false).
  { apply pstring_eqb_neq. intros ->. apply Hin. now left. }
  rewrite Hax. simpl. f_equal. apply IH. intros H. apply Hin. now right.
Qed.

Lemma first_occurrences_fixed (l : list pstring) :
  NoDup l -> first_occurrences l = l.
Proof.
  induction 1 as [|x l Hx _ IH]; [reflexivity|].
  simpl. rewrite IH. f_equal. now apply without_absent.
Qed.

(** X8: the parser is idempotent: an address it takes from a line is,
    as a line of its own, parsed to itself, so parsing the list the
    parser returned gives that list again. *)
Theorem parser_fixed_point :
  (forall line ip, line_address line = Some ip -> line_address ip = Some ip) /\
  (forall output flag flag',
     parseTraceroute (parseTraceroute output flag) flag'
       = parseTraceroute output flag).
Proof.
  assert (Hfix : forall line ip, line_address line = Some ip ->
                                 line_address ip = Some ip).
  { intros line ip H. apply line_address_shape in H.
    destruct H as [(p1 & p3 & -> & Hh & Hl & Hc & Hne)
                  | (d1 & d2 & d3 & d4 & -> & HD)].
    - now apply reparse6.
    - now apply reparse4. }
  split; [exact Hfix|].
  intros output flag flag'.
  rewrite (parse_first_occurrences (parseTraceroute output flag) flag').
  rewrite candidates_fixed.
  - apply first_occurrences_fixed.
    rewrite parse_first_occurrences. apply first_occurrences_nodup.
  - intros ip Hin. rewrite parse_first_occurrences in Hin.
    apply first_occurrences_in, candidates_in in Hin.
    destruct Hin as [line Hl]. exact (Hfix line ip Hl).
Qed.

Lemma parser_fixed_point_witness :
  parseTraceroute (parseTraceroute tracert_sample true) false
    = [str "93.184.216.34"; str "192.0.2.1"; str "198.51.100.7"].
Proof.
  rewrite (proj2 parser_fixed_point tracert_sample true false). reflexivity.
Defined.

(** ** ipInRange and isPrivateIP *)

Lemma land_neg_pow2 (x k : Z) :
  (0 <= k)%Z -> Z.land x (Z.shiftl (-1) k) = (2 ^ k * (x / 2 ^ k))%Z.
Proof.
  intros Hk. rewrite Z.shiftl_mul_pow2 by exact Hk.
  replace (-1 * 2 ^ k)%Z with (Z.lnot (Z.ones k)).
  - rewrite <- Z.ldiff_land, Z.ldiff_ones_r by exact Hk.
    rewrite Z.shiftl_mul_pow2, Z.shiftr_div_pow2 by exact Hk. lia.
  - rewrite Z.ones_equiv. unfold Z.lnot. lia.
Qed.

(** Up to [PHP_INT_MAX] the shift count is an integer difference. *)
Lemma shift_count_int (mask : Z) :
  (mask <= PHP_INT_MAX)%Z -> shift_count mask = (32 - mask)%Z.
Proof.
  intros H. unfold shift_count. apply Z.leb_le in H. now rewrite H.
Qed.

(** A range "subnet/bits" with 0 <= bits <= 32: the address is in the
    range when it agrees with the subnet above the low 32 - bits bits. *)
Lemma ipInRange_cidr (ip2long : pstring -> option Z) (ip range subnet m : pstring)
  (bits : Z) :
  explode "/" range = [subnet; m] ->
  decimal m = Some bits -> (0 <= bits <= 32)%Z ->
  ipInRange ip2long ip range
    = InRange (Z.eqb (as_int (ip2long ip) / 2 ^ (32 - bits))
                     (as_int (ip2long subnet) / 2 ^ (32 - bits))).
Proof.
  intros He Hd Hb. unfold ipInRange. rewrite He. cbn [nth]. rewrite Hd.
  rewrite shift_count_int by (unfold PHP_INT_MAX in *; lia). unfold minus_one_shifted.
  assert (Hlt : (32 - bits <? 0)%Z = false) by (apply Z.ltb_ge; lia).
  assert (Hle : (64 <=? 32 - bits)%Z = false) by (apply Z.leb_gt; lia).
  rewrite Hlt, Hle, !land_neg_pow2 by lia. f_equal.
  assert (Hp : (0 < 2 ^ (32 - bits))%Z) by (apply Z.pow_pos_nonneg; lia).
  destruct (Z.eqb_spec (as_int (ip2long ip) / 2 ^ (32 - bits))
              (as_int (ip2long subnet) / 2 ^ (32 - bits))) as [-> | Hne].
  - apply Z.eqb_refl.
  - apply Z.eqb_neq. nia.
Qed.

Lemma quad_bounds (a b c d : Z) :
  octet a -> octet b -> octet c -> octet d -> (0 <= quad a b c d < 2 ^ 32)%Z.
Proof. unfold octet, quad. intros. change (2 ^ 32)%Z with 4294967296%Z.
  change (2 ^ 24)%Z with 16777216%Z. change (2 ^ 16)%Z with 65536%Z.
  change (2 ^ 8)%Z with 256%Z. lia.
Qed.

(** X9: with an [ip2long] that reads the four subnets, [isPrivateIP]
    always returns a value; for an address that [ip2long] reads as
    a.b.c.d it is true exactly for 10.x.x.x, 172.16-31.x.x, 192.168.x.x
    and 127.x.x.x, and for a string that [ip2long] rejects (an IPv6
    address, say) it is false. *)
Theorem private_ranges_recognised (ip2long : pstring -> option Z) (ip : pstring) :
  reads_subnets ip2long ->
  (forall a b c d,
     octet a -> octet b -> octet c -> octet d ->
     ip2long ip = Some (quad a b c d) ->
     isPrivateIP ip2long ip = InRange (private_octets a b)) /\
  (ip2long ip = None -> isPrivateIP ip2long ip = InRange false).
Proof.
  intros (H10 & H172 & H192 & H127).
  assert (Hranges : isPrivateIP ip2long ip =
            InRange ((as_int (ip2long ip) / 2 ^ 24 =? 10)%Z
                     || (as_int (ip2long ip) / 2 ^ 20 =? 2753)%Z
                     || (as_int (ip2long ip) / 2 ^ 16 =? 49320)%Z
                     || (as_int (ip2long ip) / 2 ^ 24 =? 127)%Z)).
  { unfold isPrivateIP, privateRanges. cbn [map in_some_range].
    rewrite (ipInRange_cidr ip2long ip (str "10.0.0.0/8") (str "10.0.0.0") (str "8") 8);
      [|reflexivity|reflexivity|lia].
    rewrite (ipInRange_cidr ip2long ip (str "172.16.0.0/12") (str "172.16.0.0")
               (str "12") 12); [|reflexivity|reflexivity|lia].
    rewrite (ipInRange_cidr ip2long ip (str "192.168.0.0/16") (str "192.168.0.0")
               (str "16") 16); [|reflexivity|reflexivity|lia].
    rewrite (ipInRange_cidr ip2long ip (str "127.0.0.0/8") (str "127.0.0.0")
               (str "8") 8); [|reflexivity|reflexivity|lia].
    rewrite H10, H172, H192, H127. unfold as_int at 2 4 6 8.
    change (quad 10 0 0 0 / 2 ^ (32 - 8))%Z with 10%Z.
    change (quad 172 16 0 0 / 2 ^ (32 - 12))%Z with 2753%Z.
    change (quad 192 168 0 0 / 2 ^ (32 - 16))%Z with 49320%Z.
    change (quad 127 0 0 0 / 2 ^ (32 - 8))%Z with 127%Z.
    change (32 - 8)%Z with 24%Z. change (32 - 12)%Z with 20%Z.
    change (32 - 16)%Z with 16%Z.
    destruct (as_int (ip2long ip) / 2 ^ 24 =? 10)%Z; [reflexivity|].
    destruct (as_int (ip2long ip) / 2 ^ 20 =? 2753)%Z; [reflexivity|].
    destruct (as_int (ip2long ip) / 2 ^ 16 =? 49320)%Z; [reflexivity|].
    destruct (as_int (ip2long ip) / 2 ^ 24 =? 127)%Z; reflexivity. }
  rewrite Hranges. split.
  - intros a b c d Ha Hb Hc Hd Hip. rewrite Hip. cbn [as_int]. f_equal.
    unfold private_octets, quad, octet in *.
    change (2 ^ 24)%Z with 16777216%Z. change (2 ^ 20)%Z with 1048576%Z.
    change (2 ^ 16)%Z with 65536%Z. change (2 ^ 8)%Z with 256%Z.
    apply eq_true_iff_eq.
    rewrite !orb_true_iff, !andb_true_iff, !Z.eqb_eq, !Z.leb_le.
    Z.to_euclidean_division_equations. lia.
  - intros ->. reflexivity.
Qed.

Lemma private_ranges_recognised_witness :
  isPrivateIP ip2long_sample (str "172.31.255.254") = InRange true /\
  isPrivateIP ip2long_sample (str "2001:db8::1") = InRange false.
Proof.
  assert (H : reads_subnets ip2long_sample) by (repeat split; reflexivity).
  destruct (private_ranges_recognised ip2long_sample (str "172.31.255.254") H)
    as [Hq _].
  destruct (private_ranges_recognised ip2long_sample (str "2001:db8::1") H)
    as [_ Hn].
  split.
  - apply (Hq 172 31 255 254)%Z; unfold octet; try lia. reflexivity.
  - apply Hn. reflexivity.
Defined.

Lemma explode_no_delim (delim : ascii) (s : pstring) :
  ~ In delim s -> explode delim s = [s].
Proof.
  induction s as [|c s IH]; intros Hin; [reflexivity|].
  simpl. destruct (Ascii.eqb_spec delim c) as [-> | _].
  - elim Hin. now left.
  - rewrite IH; [reflexivity|]. intros H. apply Hin. now right.
Qed.

Lemma explode_one_delim (delim : ascii) (a b : pstring) :
  ~ In delim a -> ~ In delim b -> explode delim (a ++ delim :: b) = [a; b].
Proof.
  intros Ha Hb. induction a as [|c a IH]; simpl.
  - rewrite Ascii.eqb_refl, explode_no_delim by exact Hb. reflexivity.
  - destruct (Ascii.eqb_spec delim c) as [-> | _].
    + elim Ha. now left.
    + rewrite IH; [reflexivity|]. intros H. apply Ha. now right.
Qed.

Lemma decimal_from_nonneg (s : pstring) : forall acc v,
  (0 <= acc)%Z -> decimal_from acc s = Some v -> (0 <= v)%Z.
Proof.
  induction s as [|c s IH]; intros acc v Hacc H; cbn [decimal_from] in H.
  - inversion H; subst. exact Hacc.
  - destruct (is_digit c); [|discriminate].
    apply IH in H; [exact H | lia].
Qed.

Lemma decimal_nonneg (s : pstring) (v : Z) : decimal s = Some v -> (0 <= v)%Z.
Proof.
  unfold decimal. destruct s; [discriminate|].
  apply decimal_from_nonneg. lia.
Qed.

(** The digits of 2^64 are the float 2^64; 32 minus it is -2^64, which
    is 0 modulo 2^64. *)
Lemma shift_count_two_pow_64 : shift_count (2 ^ 64) = 0%Z.
Proof. vm_compute. reflexivity. Qed.

(** X10: [ipInRange] on a range "subnet/bits" compares the address and
    the subnet above their low 32 - bits bits, a string [ip2long]
    rejects counting as 0: with 0 bits every address is in the range and
    with 32 bits only the subnet itself. With more than 32 bits, up to
    [PHP_INT_MAX], the shift count is negative and the function throws.
    Beyond [PHP_INT_MAX] the bits are a float and the function may
    return again: for 2^64 the count wraps to 0, and the function
    compares the whole addresses. *)
Theorem cidr_prefix_match (ip2long : pstring -> option Z)
  (ip subnet m : pstring) (bits : Z) :
  ~ In "/"%char subnet -> ~ In "/"%char m -> decimal m = Some bits ->
  ((32 < bits <= PHP_INT_MAX)%Z ->
     ipInRange ip2long ip (subnet ++ "/"%char :: m) = ShiftError) /\
  ((bits <= 32)%Z ->
     ipInRange ip2long ip (subnet ++ "/"%char :: m)
       = InRange (as_int (ip2long ip) / 2 ^ (32 - bits)
                  =? as_int (ip2long subnet) / 2 ^ (32 - bits))%Z) /\
  (bits = 0%Z ->
     (0 <= as_int (ip2long ip) < 2 ^ 32)%Z ->
     (0 <= as_int (ip2long subnet) < 2 ^ 32)%Z ->
     ipInRange ip2long ip (subnet ++ "/"%char :: m) = InRange true) /\
  (bits = 32%Z ->
     ipInRange ip2long ip (subnet ++ "/"%char :: m)
       = InRange (as_int (ip2long ip) =? as_int (ip2long subnet))%Z) /\
  (bits = (2 ^ 64)%Z ->
     ipInRange ip2long ip (subnet ++ "/"%char :: m)
       = InRange (as_int (ip2long ip) =? as_int (ip2long subnet))%Z).
Proof.
  intros Hs Hm Hd.
  pose proof (explode_one_delim "/"%char subnet m Hs Hm) as He.
  pose proof (decimal_nonneg _ _ Hd) as Hb.
  assert (Hcidr : (bits <= 32)%Z ->
            ipInRange ip2long ip (subnet ++ "/"%char :: m)
            = InRange (as_int (ip2long ip) / 2 ^ (32 - bits)
                       =? as_int (ip2long subnet) / 2 ^ (32 - bits))%Z).
  { intros H. apply (ipInRange_cidr ip2long ip _ subnet m bits He Hd). lia. }
  split; [|split; [exact Hcidr|split; [|split]]].
  - intros H. unfold ipInRange. rewrite He. cbn [nth]. rewrite Hd.
    rewrite shift_count_int by (unfold PHP_INT_MAX in *; lia). unfold minus_one_shifted.
    assert (Hlt : (32 - bits <? 0)%Z = true) by (apply Z.ltb_lt; lia).
    now rewrite Hlt.
  - intros -> Hi Hsub. rewrite Hcidr by lia. f_equal.
    change (32 - 0)%Z with 32%Z.
    rewrite !Z.div_small by assumption. reflexivity.
  - intros ->. rewrite Hcidr by lia.
    change (2 ^ (32 - 32))%Z with 1%Z. now rewrite !Z.div_1_r.
  - intros ->. unfold ipInRange. rewrite He. cbn [nth]. rewrite Hd.
    rewrite shift_count_two_pow_64.
    change (minus_one_shifted 0) with (Some (-1)%Z). cbv beta iota.
    now rewrite !Z.land_m1_r.
Qed.

Lemma cidr_prefix_match_witness :
  ipInRange ip2long_sample (str "172.31.255.254") (str "172.16.0.0/33")
    = ShiftError /\
  ipInRange ip2long_sample (str "2001:db8::1") (str "10.0.0.0/0") = InRange true /\
  ipInRange ip2long_sample (str "172.31.255.254")
    (str "172.16.0.0/18446744073709551616") = InRange false.
Proof.
  split; [|split].
  - refine (proj1 (cidr_prefix_match ip2long_sample (str "172.31.255.254")
                     (str "172.16.0.0") (str "33") 33 _ _ _) _);
      first [not_in | reflexivity | (vm_compute; split; congruence)].
  - refine (proj1 (proj2 (proj2 (cidr_prefix_match ip2long_sample
                     (str "2001:db8::1") (str "10.0.0.0") (str "0") 0 _ _ _)))
              _ _ _); first [not_in | reflexivity | (vm_compute; split; congruence)].
  - refine (proj2 (proj2 (proj2 (proj2 (cidr_prefix_match ip2long_sample
                     (str "172.31.255.254") (str "172.16.0.0")
                     (str "18446744073709551616") (2 ^ 64) _ _ _)))) _);
      first [not_in | reflexivity].
Defined.
(** ** The progress indicator *)

Lemma first_ticks_steady :
  forallb (fun n => steady_progress (progress_after n)) (seq 0 254) = true.
Proof. vm_compute. reflexivity. Qed.

Lemma progress_after_S (n : nat) :
  progress_after (S n) = tick (progress_after n).
Proof. reflexivity. Qed.

Lemma progress_settles (k : nat) :
  progress_after (253 + k) = progress_after 253.
Proof.
  induction k as [|k IH].
  - rewrite Nat.add_0_r. reflexivity.
  - rewrite Nat.add_succ_r, progress_after_S, IH. vm_compute. reflexivity.
Qed.

Lemma every_tick_steady (n : nat) : steady_progress (progress_after n) = true.
Proof.
  pose proof (proj1 (forallb_forall _ _) first_ticks_steady) as H.
  destruct (Nat.lt_ge_cases n 254) as [Hlt | Hge].
  - apply (H n). apply in_seq. lia.
  - replace n with (253 + (n - 253)) by lia. rewrite progress_settles.
    apply (H 253). apply in_seq. lia.
Qed.

Lemma steady_progress_spec (p : float) :
  steady_progress p = true ->
  exists percent,
    Math_round p = Some percent /\ (0 <= percent <= 95)%Z /\
    (p <=? tick p)%float = true /\
    tick p = (p + increment p)%float.
Proof.
  unfold steady_progress. intros H.
  apply andb_prop in H. destruct H as [H Hcap].
  apply andb_prop in H. destruct H as [Hr Hup].
  destruct (Math_round p) as [percent|]; [|discriminate Hr].
  exists percent. split; [reflexivity|].
  apply andb_prop in Hr. destruct Hr as [H0 H95].
  apply Z.leb_le in H0. apply Z.leb_le in H95.
  split; [split; assumption|]. split; [exact Hup|].
  unfold tick. apply negb_true_iff in Hcap.
  cbv zeta. rewrite Hcap. reflexivity.
Qed.

Lemma round_after_253 : Math_round (progress_after 253) = Some 95%Z.
Proof. vm_compute. reflexivity. Qed.

(** X11: the simulated progress never completes on its own. At every
    tick the percentage shown is between 0 and 95 and [progress] does not
    go down; the cap at 99 is never applied, because the increment is 0
    from 95 on: after 253 ticks [progress] stays at 95.09999999999926 and
    the indicator at 95% with the message 'Finalizing...'. *)
Theorem progress_stops_at_95 (n : nat) :
  (exists percent,
     Math_round (progress_after n) = Some percent /\
     (0 <= percent <= 95)%Z /\
     (253 <= n -> percent = 95%Z /\ message_for percent = str "Finalizing...")) /\
  (progress_after n <=? progress_after (S n))%float = true /\
  progress_after (S n)
    = (progress_after n + increment (progress_after n))%float /\
  (253 <= n -> progress_after n = progress_after 253).
Proof.
  destruct (steady_progress_spec _ (every_tick_steady n))
    as (percent & Hm & Hp & Hup & Hcap).
  assert (Hset : 253 <= n -> progress_after n = progress_after 253).
  { intros Hn. replace n with (253 + (n - 253)) by lia. apply progress_settles. }
  split; [|split; [|split]].
  - exists percent. split; [exact Hm|]. split; [exact Hp|].
    intros Hn. apply Hset in Hn. rewrite Hn, round_after_253 in Hm.
    injection Hm as <-. split; reflexivity.
  - rewrite progress_after_S. exact Hup.
  - rewrite progress_after_S. exact Hcap.
  - exact Hset.
Qed.

Lemma progress_stops_at_95_witness :
  Math_round (progress_after 1000) = Some 95%Z.
Proof.
  destruct (proj1 (progress_stops_at_95 1000)) as (percent & Hm & _ & Hn).
  destruct Hn as [-> _]; [lia | exact Hm].
Defined.

(** ** More on the parser and the lookups *)

Lemma address_chars (line ip : pstring) :
  line_address line = Some ip -> ip <> [] /\ forallb addr_char ip = true.
Proof.
  intros H. apply line_address_shape in H.
  destruct H as [(p1 & p3 & -> & Hh & Hl & Hc & Hne)
                | (d1 & d2 & d3 & d4 & -> & HD)].
  - split; [destruct p1; discriminate|].
    rewrite !forallb_app. rewrite (forallb_impl _ _ _ hex_addr_char Hh).
    rewrite (forallb_impl _ _ _ hex_or_colon_addr_char Hc). reflexivity.
  - inversion HD as [|? ? [H1 L1] HD1]; subst.
    inversion HD1 as [|? ? [H2 L2] HD2]; subst.
    inversion HD2 as [|? ? [H3 L3] HD3]; subst.
    inversion HD3 as [|? ? [H4 L4] _]; subst.
    split; [destruct d1; [simpl in L1; lia | discriminate]|].
    rewrite !forallb_app.
    rewrite (forallb_impl _ _ _ digit_addr_char H1).
    rewrite (forallb_impl _ _ _ digit_addr_char H2).
    rewrite (forallb_impl _ _ _ digit_addr_char H3).
    rewrite (forallb_impl _ _ _ digit_addr_char H4). reflexivity.
Qed.

Lemma hop_address_chars (w : World) (target ip : pstring) :
  In ip (hop_addresses w target) -> ip <> [] /\ forallb addr_char ip = true.
Proof.
  unfold hop_addresses. rewrite parse_first_occurrences.
  intros Hin. apply first_occurrences_in, candidates_in in Hin.
  destruct Hin as [line Hl]. exact (address_chars _ _ Hl).
Qed.

(** X12: every URL a request fetches is the fixed ip-api.com prefix, an
    address and the fixed field list, and the address is a non-empty
    string of hexadecimal digits, colons and dots: nothing else of a
    traceroute line can get into a URL. *)
Theorem lookup_urls_are_clean (w : World) (param : option pstring) (url : pstring) :
  In url (http_urls (fst (main w param))) ->
  exists ip,
    url = geo_url ip /\ ip <> [] /\ forallb addr_char ip = true /\
    exists target, validate param = Valid target /\
                   In ip (hop_addresses w target).
Proof.
  unfold main. destruct (validate param) as [| |target] eqn:Hv;
    try (intros []).
  destruct (try_pipeline_trace w target) as (k & _ & Htr). rewrite Htr.
  cbn [http_urls]. rewrite http_urls_between, in_map_iff.
  intros (ip & <- & Hin).
  assert (Hip : In ip (hop_addresses w target)).
  { rewrite <- (firstn_skipn k (hop_addresses w target)), in_app_iff. now left. }
  exists ip. destruct (hop_address_chars _ _ _ Hip) as [Hne Hall].
  repeat split; auto. exists target. auto.
Qed.

Lemma lookup_urls_are_clean_witness :
  exists ip,
    geo_url (str "198.51.100.7") = geo_url ip /\ ip <> [] /\
    forallb addr_char ip = true.
Proof.
  destruct (lookup_urls_are_clean mixed_world example_com
              (geo_url (str "198.51.100.7")))
    as (ip & Hurl & Hne & Hall & _).
  - vm_compute. right. left. reflexivity.
  - exists ip. auto.
Defined.

(** X13: more output only adds addresses at the end: the list parsed
    from lines followed by more lines begins with the list parsed from
    the first lines, and what follows are addresses of the later lines
    that the first lines did not have. *)
Theorem parse_extends (output more : list pstring) (flag : bool) :
  exists added,
    parseTraceroute (output ++ more) flag
      = parseTraceroute output flag ++ added /\
    forall ip, In ip added ->
               In ip (candidates more) /\ ~ In ip (parseTraceroute output flag).
Proof.
  unfold parseTraceroute. rewrite fold_left_app.
  rewrite (parse_fold_candidates more), fold_push_first_occurrences.
  eexists. split; [reflexivity|].
  intros ip Hin. apply filter_In in Hin. destruct Hin as [Hin Hfresh].
  split; [exact (proj1 (first_occurrences_in _ _) Hin)|].
  unfold fresh in Hfresh. apply negb_true_iff in Hfresh.
  intros H. apply in_array_spec in H. congruence.
Qed.

(** ** Lookups that throw *)

Lemma getGeolocation_faults (w : World) (ip : pstring) :
  lookup_faults w ip ->
  exists msg, string_offset_error w = Some msg /\
              result (getGeolocation w ip) = inr (Error msg).
Proof.
  intros (s & msg & Hd & He & Ho). exists msg. split; [exact Ho|].
  unfold decoded in Hd. unfold getGeolocation, emit. rewrite bind_inl.
  unfold result at 1. cbn [snd].
  destruct (file_get_contents w (geo_url ip)) as [body|]; [|discriminate].
  cbn [option_map] in Hd. inversion Hd as [Hd']. rewrite Hd'.
  unfold status_is_success, truthy. rewrite He, Ho. reflexivity.
Qed.

Lemma getGeolocation_error (w : World) (ip : pstring) (t : thrown) :
  result (getGeolocation w ip) = inr t ->
  lookup_faults w ip /\
  exists msg, string_offset_error w = Some msg /\ t = Error msg.
Proof.
  unfold getGeolocation, lookup_faults, decoded, emit. rewrite bind_inl.
  unfold result at 1. cbn [snd].
  destruct (file_get_contents w (geo_url ip)) as [body|]; [|discriminate].
  cbn [option_map]. unfold status_is_success.
  destruct (json_decode w body) as [| b | z | f | s | a];
    try (destruct (truthy _); discriminate).
  - unfold truthy. destruct (empty_string s) eqn:He; [discriminate|].
    cbn [negb].
    destruct (string_offset_error w) as [msg|] eqn:Ho; [|discriminate].
    intros H. inversion H; subst t. split; eauto 6.
  - destruct (truthy (PArr a)); [|discriminate].
    destruct (arr_read (skey "status") a); try discriminate.
    destruct (pstring_eqb _ _); discriminate.
Qed.

Lemma geo_loop_error (w : World) (ips : list pstring) :
  forall n index hops t,
    result (geo_loop w n index ips hops) = inr t ->
    exists ip msg,
      In ip ips /\ lookup_faults w ip /\
      string_offset_error w = Some msg /\ t = Error msg.
Proof.
  induction ips as [|ip rest IH]; intros n index hops t H; [discriminate|].
  cbn [geo_loop] in H.
  destruct (getGeolocation w ip) as [tr [r|t0]] eqn:Hg.
  - rewrite bind_inl in H. unfold result at 1 in H. cbn [snd] in H.
    assert (Hstep : exists tr', (if (index <? n - 1)%Z
                                 then emit (EvSleep 700000) else ret tt)
                                = (tr', inl tt)).
    { destruct (index <? n - 1)%Z; unfold emit, ret; eauto. }
    destruct Hstep as [tr' Hstep]. rewrite Hstep, bind_inl in H.
    unfold result at 1 in H. cbn [snd] in H.
    apply IH in H. destruct H as (ip' & msg & Hin & Hf & Ho & Ht).
    exists ip', msg. repeat split; auto. now right.
  - rewrite bind_inr in H. unfold result in H. cbn [snd] in H.
    inversion H; subst t0.
    assert (Hr : result (getGeolocation w ip) = inr t) by now rewrite Hg.
    apply getGeolocation_error in Hr. destruct Hr as (Hf & msg & Ho & Ht).
    exists ip, msg. repeat split; auto. now left.
Qed.

Lemma geo_loop_fault_throws (w : World) (ips : list pstring) :
  forall n index hops,
    (exists ip, In ip ips /\ lookup_faults w ip) ->
    exists msg, string_offset_error w = Some msg /\
                result (geo_loop w n index ips hops) = inr (Error msg).
Proof.
  induction ips as [|ip rest IH]; intros n index hops (ip' & Hin & Hf);
    [destruct Hin|].
  cbn [geo_loop].
  destruct (getGeolocation w ip) as [tr [r|t0]] eqn:Hg.
  - rewrite bind_inl. unfold result at 1. cbn [snd].
    assert (Hrest : In ip' rest).
    { destruct Hin as [<- | Hin]; [|exact Hin].
      destruct (getGeolocation_faults w ip Hf) as (msg & _ & Hr).
      rewrite Hg in Hr. discriminate. }
    destruct (index <? n - 1)%Z; unfold emit, ret; rewrite bind_inl;
      unfold result at 1; cbn [snd]; apply IH; eauto.
  - rewrite bind_inr. unfold result. cbn [snd].
    assert (Hr : result (getGeolocation w ip) = inr t0) by now rewrite Hg.
    apply getGeolocation_error in Hr. destruct Hr as (_ & msg & Ho & ->).
    eauto.
Qed.



(** ** The header line of traceroute *)

(** The IPv4 pattern does not match at an offset before a character
    that is neither a digit nor a dot when no dot before that character
    is followed by a digit. *)
Lemma ipv4_no_match_before (b rest : pstring) (c0 : ascii) :
  b <> [] -> dot_then_digit b = false ->
  is_digit c0 = false -> c0 <> "."%char ->
  match_here ipv4_re (b ++ c0 :: rest) = None.
Proof.
  intros Hb Hdd Hc0 Hdot.
  destruct (match_here ipv4_re _) as [ps|] eqn:Hm; [exfalso|reflexivity].
  apply ipv4_match_shape in Hm.
  destruct Hm as (o & d1 & d2 & d3 & d4 & c & rest' & _ & Hs & Ho & _ & HD).
  inversion HD as [|? ? [Hd1 Hl1] HD1]; subst.
  inversion HD1 as [|? ? [Hd2 Hl2] _]; subst.
  destruct d2 as [|x d2]; [simpl in Hl2; lia|].
  simpl in Hd2. apply andb_prop in Hd2. destruct Hd2 as [Hx _].
  assert (Htail : forall y t, o ++ d1 = y :: t -> forallb is_digit t = true).
  { intros y t Hyt. destruct Ho as [-> | ->]; simpl in Hyt.
    - subst d1. simpl in Hd1. now apply andb_prop in Hd1.
    - now inversion Hyt; subst. }
  rewrite app_assoc in Hs. simpl in Hs.
  apply app_eq_app in Hs. destruct Hs as [l [[Hbl Hl] | [Hu Hl]]].
  - destruct l as [|c1 l]; simpl in Hl; [injection Hl as Hl _; congruence|].
    injection Hl as Hc1 Hl'.
    destruct l as [|c2 l]; simpl in Hl'.
    + injection Hl' as Hx' _. congruence.
    + injection Hl' as Hx' _.
      rewrite Hbl, <- Hc1, <- Hx' in Hdd.
      apply dot_then_digit_at in Hdd. congruence.
  - destruct l as [|c1 l]; simpl in Hl; [injection Hl as Hl _; congruence|].
    injection Hl as Hc1 _.
    destruct b as [|b0 b]; [congruence|].
    simpl in Hu. apply Htail in Hu.
    rewrite forallb_forall in Hu.
    assert (Hin : In c1 (b ++ c1 :: l)) by (rewrite in_app_iff; simpl; auto).
    apply Hu in Hin. congruence.
Qed.

Lemma ipv4_not_at (c0 : ascii) (rest : pstring) :
  is_digit c0 = false -> c0 <> "["%char ->
  match_here ipv4_re (c0 :: rest) = None.
Proof.
  intros Hd Hb.
  destruct (match_here ipv4_re _) as [ps|] eqn:Hm; [exfalso|reflexivity].
  apply ipv4_match_shape in Hm.
  destruct Hm as (o & d1 & d2 & d3 & d4 & c & rest' & _ & Hs & Ho & _ & HD).
  inversion HD as [|? ? [Hd1 Hl1] _]; subst.
  destruct Ho as [-> | ->]; simpl in Hs.
  - destruct d1 as [|x d1]; [simpl in Hl1; lia|].
    simpl in Hs, Hd1. injection Hs as Hx _. apply andb_prop in Hd1.
    destruct Hd1 as [Hxd _]. congruence.
  - injection Hs as Hx _. congruence.
Qed.

(** A dotted quad: four groups of one to three digits. *)
Lemma quad_here (d1 d2 d3 d4 post : pstring) :
  Forall (fun d => forallb is_digit d = true /\ 1 <= length d <= 3)
    [d1; d2; d3; d4] ->
  match post with
  | [] => True
  | c :: _ => is_digit c = false /\ c <> "]"%char
  end ->
  match_here ipv4_re
    ([] ++ d1 ++ ["."%char] ++ d2 ++ ["."%char] ++ d3 ++ ["."%char] ++ d4
        ++ [] ++ post)
  = Some [[]; d1; ["."%char]; d2; ["."%char]; d3; ["."%char]; d4; []].
Proof.
  intros HD Hpost.
  inversion HD as [|? ? [H1 L1] HD1]; subst.
  inversion HD1 as [|? ? [H2 L2] HD2]; subst.
  inversion HD2 as [|? ? [H3 L3] HD3]; subst.
  inversion HD3 as [|? ? [H4 L4] _]; subst.
  assert (Hne : forall d : pstring, 1 <= length d <= 3 -> d <> []).
  { intros d Hl ->. simpl in Hl. lia. }
  unfold match_here, ipv4_re, atoms, fin_of, dollar.
  erewrite match_atoms_cons_max; [reflexivity | apply fits_opt_nil | | ].
  { right. apply (head_class is_digit); auto. apply digit_not_bracket. }
  erewrite match_atoms_cons_max;
    [reflexivity | now apply fits_rep | right; reflexivity | ].
  erewrite match_atoms_cons_max; [reflexivity | apply fits_one | now left | ].
  erewrite match_atoms_cons_max;
    [reflexivity | now apply fits_rep | right; reflexivity | ].
  erewrite match_atoms_cons_max; [reflexivity | apply fits_one | now left | ].
  erewrite match_atoms_cons_max;
    [reflexivity | now apply fits_rep | right; reflexivity | ].
  erewrite match_atoms_cons_max; [reflexivity | apply fits_one | now left | ].
  erewrite match_atoms_cons_max; [reflexivity | now apply fits_rep | | ].
  { right. destruct post as [|c post]; [exact I | exact (proj1 Hpost)]. }
  erewrite match_atoms_cons_max; [reflexivity | apply fits_opt_nil | | reflexivity].
  right. destruct post as [|c post]; [exact I|].
  apply is_char_neq. exact (proj2 Hpost).
Qed.

Lemma suffix_before_last (pre a b : pstring) (c : ascii) :
  pre ++ [c] = a ++ b -> b <> [] -> exists b', b = b' ++ [c] /\ pre = a ++ b'.
Proof.
  intros H Hb. destruct (exists_last Hb) as (b' & x & ->).
  rewrite app_assoc in H. apply app_inj_tail in H. destruct H as [-> ->].
  eauto.
Qed.

(** X15: the header line of traceroute is not skipped. A line with a
    dotted quad in parentheses, no colon, and before the parenthesis no
    dot followed by a digit (as in "traceroute to example.com
    (93.184.216.34), 15 hops max") yields that quad, so when it is the
    first line the destination itself is the first address of the
    list. *)
Theorem parenthesised_address (pre d1 d2 d3 d4 post : pstring) :
  Forall (fun d => forallb is_digit d = true /\ 1 <= length d <= 3)
    [d1; d2; d3; d4] ->
  ~ In ":"%char pre -> ~ In ":"%char post ->
  dot_then_digit pre = false ->
  unresponsive (pre ++ ["("%char] ++ d1 ++ ["."%char] ++ d2 ++ ["."%char] ++ d3
                  ++ ["."%char] ++ d4 ++ [")"%char] ++ post) = false ->
  line_address (pre ++ ["("%char] ++ d1 ++ ["."%char] ++ d2 ++ ["."%char] ++ d3
                  ++ ["."%char] ++ d4 ++ [")"%char] ++ post)
    = Some (d1 ++ ["."%char] ++ d2 ++ ["."%char] ++ d3 ++ ["."%char] ++ d4) /\
  forall more flag,
    exists others,
      parseTraceroute
        ((pre ++ ["("%char] ++ d1 ++ ["."%char] ++ d2 ++ ["."%char] ++ d3
            ++ ["."%char] ++ d4 ++ [")"%char] ++ post) :: more) flag
      = (d1 ++ ["."%char] ++ d2 ++ ["."%char] ++ d3 ++ ["."%char] ++ d4) :: others.
Proof.
  intros HD Hpre Hpost Hdd Hun.
  set (line := pre ++ ["("%char] ++ d1 ++ ["."%char] ++ d2 ++ ["."%char] ++ d3
                 ++ ["."%char] ++ d4 ++ [")"%char] ++ post) in *.
  assert (Hline : line = (pre ++ ["("%char]) ++
            ([] ++ d1 ++ ["."%char] ++ d2 ++ ["."%char] ++ d3 ++ ["."%char] ++ d4
                ++ [] ++ (")"%char :: post))).
  { unfold line. now rewrite <- app_assoc. }
  assert (Hdig : forall d, In d [d1; d2; d3; d4] -> ~ In ":"%char d).
  { intros d Hd Hin. rewrite Forall_forall in HD. apply HD in Hd.
    destruct Hd as [Hd _]. rewrite forallb_forall in Hd. apply Hd in Hin.
    discriminate. }
  assert (Hnc : ~ In ":"%char line).
  { unfold line. rewrite !in_app_iff. simpl.
    intros [H | [[H | []] | [H | [[H | []] | [H | [[H | []] | [H | [[H | []]
             | [H | [[H | []] | H]]]]]]]]]];
      try discriminate H; try contradiction;
      eapply Hdig; try exact H; simpl; auto. }
  assert (Haddr : line_address line
            = Some (d1 ++ ["."%char] ++ d2 ++ ["."%char] ++ d3 ++ ["."%char] ++ d4)).
  { assert (Hne : empty_string (trim line) = false).
    { apply (not_empty_if_contains line "("%char).
      - unfold line. rewrite !in_app_iff. right. left. simpl. auto.
      - reflexivity.
      - discriminate. }
    assert (H6 : search ipv6_re line = None) by exact (ipv6_needs_colon _ Hnc).
    assert (H4 : search ipv4_re line
                 = Some [[]; d1; ["."%char]; d2; ["."%char]; d3; ["."%char]; d4; []]).
    { rewrite Hline. rewrite search_skip.
      - apply search_here.
        apply (quad_here d1 d2 d3 d4 (")"%char :: post) HD).
        split; [reflexivity | discriminate].
      - reflexivity.
      - intros a b Hab Hb.
        destruct (suffix_before_last _ _ _ _ Hab Hb) as (b' & -> & Hpre').
        rewrite <- app_assoc. cbn [app].
        destruct b' as [|b0 b'].
        + apply ipv4_not_at; [reflexivity | discriminate].
        + apply ipv4_no_match_before.
          * discriminate.
          * rewrite Hpre' in Hdd. now apply dot_then_digit_suffix in Hdd.
          * reflexivity.
          * discriminate. }
    clearbody line.
    unfold line_address. rewrite Hne, Hun.
    unfold preg_match_group1. rewrite H6, H4.
    simpl. now rewrite app_nil_r. }
  split; [exact Haddr|].
  intros more flag. rewrite parse_first_occurrences. cbn [candidates].
  rewrite Haddr. cbn [first_occurrences]. eauto.
Qed.

Lemma parenthesised_address_witness :
  exists others,
    parseTraceroute
      [ str "traceroute to example.com (93.184.216.34), 15 hops max, 60 byte packets";
        str " 1  gateway (192.0.2.1)  0.412 ms  0.398 ms  0.377 ms" ] false
    = str "93.184.216.34" :: others.
Proof.
  refine (proj2 (parenthesised_address (str "traceroute to example.com ")
                   (str "93") (str "184") (str "216") (str "34")
                   (str ", 15 hops max, 60 byte packets") _ _ _ _ _)
            [str " 1  gateway (192.0.2.1)  0.412 ms  0.398 ms  0.377 ms"] false);
    first [ reflexivity | not_in
          | repeat (apply Forall_cons; [split; [reflexivity | simpl; lia]|]);
            apply Forall_nil ].
Defined.
